(** * Verification of [pytensor/tensor/elemwise_cgen.py]

    The module is a code generator: every function returns a piece of C
    (or C++) text.  The embedding keeps the generators as executable
    functions that return the abstract syntax of the emitted text (one
    constructor per emitted statement shape), and gives that syntax a
    big-step interpreter so that properties of the emitted code can be
    stated about its runs.

    Conventions of the interpreter:
    - integers of the emitted code are mathematical integers ([Z]); no
      [int] / [npy_intp] wrap-around is modelled;
    - a data pointer [var_iter] is represented by its offset, counted in
      elements, from [PyArray_DATA(var)];
    - caller supplied fragments (tasks) are opaque: running one records
      where every operand points and changes nothing. *)

From Stdlib Require Import ZArith Lia.
From stdpp Require Import base option list strings gmap sorting.

Set Warnings "-register-all".

(** ** Loop orders *)

(** An entry of a loop order: the letter ['x'] (broadcast) or the index of
    a dimension of the operand. *)
Inductive index :=
| X
| Dim (d : nat).

#[global] Instance index_eq_dec : EqDecision index.
Proof. solve_decision. Defined.

Definition loop_order := list index.

(** [index != "x"] *)
Definition is_dim (ix : index) : bool :=
  match ix with X => false | Dim _ => true end.

(** Python's [enumerate]. *)
Fixpoint enumerate_from {A} (k : nat) (l : list A) : list (nat * A) :=
  match l with
  | [] => []
  | a :: l' => (k, a) :: enumerate_from (S k) l'
  end.

Definition enumerate {A} (l : list A) : list (nat * A) := enumerate_from 0 l.

(** Python's [zip( *ls )]: the columns of [ls], as many as the shortest row
    has entries; no column at all when [ls] is empty. *)
Fixpoint zip_star {A} (ls : list (list A)) : list (list A) :=
  match ls with
  | [] => []
  | l :: ls' =>
      match ls' with
      | [] => (λ a, [a]) <$> l
      | _ :: _ => zip_with cons l (zip_star ls')
      end
  end.

(** ** Syntax of the emitted code *)

(** Names of the scalar variables of the emitted code.  [var] is the name
    that [sub] gives to a loop variable. *)
Inductive ident :=
| n_ (var : string) (d : nat)                 (* {var}_n{d} *)
| stride_ (var : string) (d : nat)            (* {var}_stride{d} *)
| jump_ (var : string) (ix : index) (j : nat) (* {var}_jump{index}_{j} *)
| ITER_ (i : nat)                             (* ITER_{i} *)
| TOTAL_ (i : nat)                            (* TOTAL_{i} *)
| stride_l_ (var : string) (j : nat)          (* {var}_stride_l{j} *)
| elt_ (array_name : string) (i : nat)        (* {array_name}[{i}] *)
| elt2_ (array_name : string) (i k : nat).    (* {array_name}[{i}][{k}] *)

#[global] Instance ident_eq_dec : EqDecision ident.
Proof. solve_decision. Defined.

Inductive expr :=
| Const (z : Z)
| Var (x : ident)
| PyArray_NDIM (var : string)
| PyArray_DIMS (var : string) (d : nat)            (* PyArray_DIMS(var)[d] *)
| PyArray_STRIDES_by_sizeof (var : string) (d : nat) (dtype : string)
                                   (* PyArray_STRIDES(var)[d] / sizeof(dtype) *)
| abs_PyArray_STRIDES (var : string) (d : nat)     (* abs(PyArray_STRIDES(var)[d]) *)
| Neg (e : expr)                                   (* -(e) *)
| Sub (e1 e2 : expr)                               (* (e1) - (e2) *)
| Mul (e1 e2 : expr)                               (* e1*e2 *)
| Index (array_name : string) (e : expr)           (* array_name[e] *)
| Index2 (array_name : string) (i : nat) (e : expr) (* array_name[i][e] *)
| it_second (ovar : string)                        (* {ovar}_loops_it->second *)
| rit_second (ovar : string).                      (* {ovar}_loops_rit->second *)

Inductive cond :=
| CLt (a b : expr)
| CNe (a b : expr)
| CEq (a b : expr)
| COr (c1 c2 : cond).

Inductive stmt :=
| Assign (x : ident) (e : expr)
| If (c : cond) (thn els : list stmt)
| PyErr_SetString (msg : string)          (* PyErr_SetString(PyExc_ValueError, msg); *)
| PyErr_Format (fmt : string) (args : list expr)
                                          (* PyErr_Format(PyExc_ValueError, fmt, args); *)
| Fail                                    (* %(fail)s *)
| IterInit (var dtype : string)           (* {var}_iter = ({dtype}* )(PyArray_DATA({var})); *)
| RefBind (dtype var : string) (terms : list expr)
                                          (* {dtype} &{var}_i = * ( {var}_iter + terms ); *)
| IterAdvance (var : string) (e : expr)   (* {var}_iter += e; *)
| For (omp : option (expr * Z)) (i : nat) (n : expr) (body : list stmt)
     (* [#pragma omp parallel for if( e >=minsize)]
        for (int ITER_i = 0; ITER_i<n; ITER_i++) { body } *)
| ForDown (i : nat) (n : expr) (body : list stmt)
     (* for (int ITER_i = n; ITER_i; ITER_i--) { body } *)
| Task (code : string)                    (* a fragment supplied by the caller *)
| Block (body : list stmt)                (* { body } *)
| DeclLoops (ovar : string) (nnested : nat)
     (* std::vector< std::pair<int, int> > {ovar}_loops(nnested);
        ...::iterator {ovar}_loops_it = {ovar}_loops.begin(); *)
| ItSetFirst (ovar : string) (e : expr)   (* {ovar}_loops_it->first = e; *)
| ItSetSecond (ovar : string) (i : nat)   (* {ovar}_loops_it->second = i; *)
| ItIncr (ovar : string)                  (* ++{ovar}_loops_it; *)
| ItBegin (ovar : string)                 (* {ovar}_loops_it = {ovar}_loops.begin(); *)
| SortRev (ovar : string)
     (* std::sort({ovar}_loops.rbegin(), {ovar}_loops.rend()); *)
| DeclArray (array_name : string) (size : nat)        (* int name[size]; *)
| DeclArray2 (array_name : string) (rows cols : nat) (init : list expr)
     (* int name[rows][cols] = { init }; *)
| DeclRit (ovar : string)                 (* ...::reverse_iterator {ovar}_loops_rit; *)
| RitBegin (ovar : string)                (* {ovar}_loops_rit = {ovar}_loops.rbegin(); *)
| RitIncr (ovar : string).                (* ++{ovar}_loops_rit; *)

(** A declaration of the emitted code: the running pointer of an operand,
    or a scalar variable with its C type. *)
Inductive decl :=
| DeclIter (dtype var : string)            (* {dtype}* {var}_iter; *)
| DeclScalar (ctype : string) (x : ident). (* {ctype} {x}; *)

(** ** The generators *)

Section Generators.

(** [sub] maps ['lv#'] to a variable name: [lv i] stands for
    [sub[f"lv{i}"]]. *)
Variable lv : nat → string.

(** [config.openmp_elemwise_minsize] *)
Variable openmp_elemwise_minsize : Z.

(** *** make_declare *)

(** Lines 17-34: the declarations for one entry of a loop order. *)
Definition declare_entry (var : string) (jx : nat * index) : list decl :=
  let '(j, value) := jx in
  match value with
  | Dim d =>
      [DeclScalar "npy_intp" (n_ var d);
       DeclScalar "ssize_t" (stride_ var d);
       DeclScalar "int" (jump_ var value j)]
  | X => [DeclScalar "int" (jump_ var value j)]
  end.

(** The body of the loop of lines 10-34 for operand [i]. *)
Definition declare_operand (i : nat) (lo : loop_order) (dtype : string)
  : list decl :=
  DeclIter dtype (lv i) :: mjoin (declare_entry (lv i) <$> enumerate lo).

Definition make_declare (loop_orders : list loop_order) (dtypes : list string)
  : list decl :=
  mjoin (imap (λ i '(lo, dtype), declare_operand i lo dtype)
              (zip loop_orders dtypes)).

(** *** make_checks *)

(** [nonx = [x for x in loop_order if x != "x"]] *)
Definition nonx (lo : loop_order) : list nat :=
  omap (λ ix, match ix with X => None | Dim d => Some d end) lo.

(** Python's [max] of a non-empty list of dimension indices. *)
Definition py_max (l : list nat) : nat := foldr Nat.max 0 l.

Definition not_enough_dimensions_msg : string :=
  "Not enough dimensions on input.".

(** The rank check of one operand (lines 44-55). *)
Definition rank_check (var : string) (lo : loop_order) : list stmt :=
  match nonx lo with
  | [] => []
  | _ :: _ =>
      let min_nd := py_max (nonx lo) + 1 in
      [If (CLt (PyArray_NDIM var) (Const (Z.of_nat min_nd)))
          [PyErr_SetString not_enough_dimensions_msg; Fail] []]
  end.

(** One turn of the loop of lines 65-81; the state of the loop is the text
    emitted so far and the expression [adjust]. *)
Definition jump_step (var dtype : string)
    (acc : list stmt * expr) (jx : nat * index) : list stmt * expr :=
  let '(init, adjust) := acc in
  let '(j, ix) := jx in
  match ix with
  | Dim d =>
      let jump := Sub (Var (stride_ var d)) adjust in
      (init ++ [Assign (n_ var d) (PyArray_DIMS var d);
                Assign (stride_ var d) (PyArray_STRIDES_by_sizeof var d dtype);
                Assign (jump_ var ix j) jump],
       Mul (Var (n_ var d)) (Var (stride_ var d)))
  | X =>
      let jump := Neg adjust in
      (init ++ [Assign (jump_ var ix j) jump], Const 0)
  end.

(** Lines 62-81: [adjust = "0"], then the positions from the inner loop to
    the outer loop. *)
Definition jump_init (var dtype : string) (lo : loop_order) : list stmt :=
  fst (foldl (jump_step var dtype) ([], Const 0) (reverse (enumerate lo))).

(** The body of the loop of lines 41-81 for operand [i]. *)
Definition init_operand (i : nat) (lo : loop_order) (dtype : string) : list stmt :=
  rank_check (lv i) lo ++ jump_init (lv i) dtype lo.

Definition make_checks_init (loop_orders : list loop_order) (dtypes : list string)
  : list stmt :=
  mjoin (imap (λ i '(lo, dtype), init_operand i lo dtype) (zip loop_orders dtypes)).

(** The two formats of lines 88-93 and 118, after [% sub] has turned each
    doubled percent sign into a single one. *)
Definition runtime_broadcast_error_msg : string :=
  "Runtime broadcasting not allowed. " +:+
  "One input had a distinct dimension length of 1, but was not marked as broadcastable: " +:+
  "(input[%i].shape[%i] = %lld, input[%i].shape[%i] = %lld). " +:+
  "If broadcasting was intended, use `specify_broadcastable` on the relevant input.".

Definition dimension_mismatch_msg : string :=
  "Input dimension mismatch: (input[%i].shape[%i] = %lld, input[%i].shape[%i] = %lld)".

(** [to_compare = [(j, x) for j, x in enumerate(matches) if x != "x"]] *)
Definition to_compare (matches : list index) : list (nat * nat) :=
  omap (λ '(j, ix), match ix with X => None | Dim x => Some (j, x) end)
       (enumerate matches).

(** The text of lines 104-129 for one pair. *)
Definition dim_check (j0 x0 j x : nat) : stmt :=
  let n0 := Var (n_ (lv j0) x0) in
  let n1 := Var (n_ (lv j) x) in
  let args := [Const (Z.of_nat j0); Const (Z.of_nat x0); n0;
               Const (Z.of_nat j); Const (Z.of_nat x); n1] in
  If (CNe n0 n1)
     [If (COr (CEq n0 (Const 1)) (CEq n1 (Const 1)))
         [PyErr_Format runtime_broadcast_error_msg args]
         [PyErr_Format dimension_mismatch_msg args];
      Fail]
     [].

(** Lines 96-129 for one column of [zip( *loop_orders )]. *)
Definition checks_of_matches (matches : list index) : list stmt :=
  match to_compare matches with
  | (j0, x0) :: ((_ :: _) as rest) => (λ '(j, x), dim_check j0 x0 j x) <$> rest
  | _ => []
  end.

Definition make_checks_check (loop_orders : list loop_order) : list stmt :=
  mjoin (checks_of_matches <$> zip_star loop_orders).

Definition make_checks (loop_orders : list loop_order) (dtypes : list string)
  : list stmt :=
  make_checks_init loop_orders dtypes ++ make_checks_check loop_orders.

(** *** compute_output_dims_lengths *)

(** Lines 145-152: borrow the length of the first candidate that is not
    ['x']; the [else] of the [for] gives 1. *)
Fixpoint borrow_length (candidates : list (nat * index)) : expr :=
  match candidates with
  | [] => Const 1
  | (j, Dim d) :: _ => Var (n_ (lv j) d)
  | (_, X) :: rest => borrow_length rest
  end.

Definition compute_output_dims_lengths
    (array_name : string) (loop_orders : list loop_order) : list stmt :=
  (λ '(i, candidates),
     Assign (elt_ array_name i) (borrow_length (enumerate candidates)))
  <$> enumerate (zip_star loop_orders).

(** *** make_loop and make_loop_careduce *)

(** [loop_tasks]: a pair of fragments for every level and, last, a single
    fragment. *)
Record loop_tasks := LoopTasks {
  level_tasks : list (string * string);
  last_task : string
}.

(** A left fold whose step can raise (Python's [IndexError]). *)
Fixpoint foldlM {A B} (f : B → A → option B) (b : B) (l : list A) : option B :=
  match l with
  | [] => Some b
  | a :: l' => f b a ≫= λ b', foldlM f b' l'
  end.

(** The position of the first entry that is not ['x'] (lines 264-265). *)
Fixpoint first_dim_pos (lo : list (nat * index)) : option nat :=
  match lo with
  | [] => None
  | (j, Dim _) :: _ => Some j
  | (_, X) :: rest => first_dim_pos rest
  end.

(** [preloops.setdefault(j, ""); preloops[j] += code] *)
Definition setdefault_add (j : nat) (code : list stmt)
    (preloops : gmap nat (list stmt)) : gmap nat (list stmt) :=
  <[j := default [] (preloops !! j) ++ code]> preloops.

(** One turn of the loop of lines 263-275 (and 529-541). *)
Definition preloops_step (preloops : gmap nat (list stmt))
    (x : nat * (loop_order * string)) : gmap nat (list stmt) :=
  let '(i, (lo, dtype)) := x in
  match first_dim_pos (enumerate lo) with
  | Some j => setdefault_add j [IterInit (lv i) dtype] preloops
  | None => (* all broadcastable *)
      setdefault_add 0 [IterInit (lv i) dtype] preloops
  end.

Definition make_preloops (loop_orders : list loop_order) (dtypes : list string)
  : gmap nat (list stmt) :=
  foldl preloops_step ∅ (enumerate (zip loop_orders dtypes)).

(** One turn of the loop of lines 241-247; [dtypes[j]] can raise. *)
Definition loop_over_step (dtypes : list string) (i : nat)
    (acc : list stmt * expr) (jx : nat * index) : option (list stmt * expr) :=
  let '(update, suitable_n) := acc in
  let '(j, ix) := jx in
  let var := lv j in
  dtype ← dtypes !! j;
  Some (update ++ [RefBind dtype var [Mul (Var (ITER_ i)) (Var (jump_ var ix i))]],
        match ix with Dim d => Var (n_ var d) | X => suitable_n end).

(** [loop_over] of [make_loop] (lines 237-260). *)
Definition loop_over (dtypes : list string) (openmp : bool)
    (preloop code : list stmt) (indices : list index) (i : nat)
  : option (list stmt) :=
  '(update, suitable_n) ←
     foldlM (loop_over_step dtypes i) ([], Const 1) (enumerate indices);
  let omp :=
    if openmp then Some (suitable_n, openmp_elemwise_minsize) else None in
  Some (preloop ++ [For omp i suitable_n (update ++ code)]).

(** The triples of lines 279-281, before [reversed]. *)
Definition level_triples (loop_orders : list loop_order) (tasks : loop_tasks)
  : list (nat * ((string * string) * list index)) :=
  zip (seq 0 (length (level_tasks tasks)))
      (zip (level_tasks tasks) (zip_star loop_orders)).

(** One turn of the loop of lines 279-282. *)
Definition make_loop_step (dtypes : list string) (openmp : bool)
    (preloops : gmap nat (list stmt)) (s : list stmt)
    (t : nat * ((string * string) * list index)) : option (list stmt) :=
  let '(i, ((pre_task, task), indices)) := t in
  loop_over dtypes openmp
    (default [] (preloops !! i) ++ [Task pre_task])
    (s ++ [Task task]) indices i.

Definition make_loop (loop_orders : list loop_order) (dtypes : list string)
    (tasks : loop_tasks) (openmp : bool) : option stmt :=
  let preloops := make_preloops loop_orders dtypes in
  s ← foldlM (make_loop_step dtypes openmp preloops)
             [] (reverse (level_triples loop_orders tasks));
  Some (Block (s ++ [Task (last_task tasks)])).

(** One turn of the loop of lines 515-519. *)
Definition loop_over_careduce_step (i : nat)
    (acc : list stmt * expr) (jx : nat * index) : list stmt * expr :=
  let '(update, suitable_n) := acc in
  let '(j, ix) := jx in
  let var := lv j in
  (update ++ [IterAdvance var (Var (jump_ var ix i))],
   match ix with Dim d => Var (n_ var d) | X => suitable_n end).

(** [loop_over] of [make_loop_careduce] (lines 511-526). *)
Definition loop_over_careduce
    (preloop code : list stmt) (indices : list index) (i : nat) : list stmt :=
  let '(update, suitable_n) :=
    foldl (loop_over_careduce_step i) ([], Const 1) (enumerate indices) in
  preloop ++ [ForDown i suitable_n (code ++ update)].

(** One turn of the loop of lines 547-550. *)
Definition make_loop_careduce_step (preloops : gmap nat (list stmt))
    (s : list stmt) (t : nat * ((string * string) * list index)) : list stmt :=
  let '(i, ((pre_task, task), indices)) := t in
  loop_over_careduce
    (default [] (preloops !! i) ++ [Task pre_task])
    (s ++ [Task task]) indices i.

Definition make_loop_careduce (loop_orders : list loop_order)
    (dtypes : list string) (tasks : loop_tasks) : stmt :=
  let preloops := make_preloops loop_orders dtypes in
  let s :=
    match level_tasks tasks with
    | [] => (* len(loop_tasks) == 1 *) default [] (preloops !! 0)
    | _ :: _ =>
        foldl (make_loop_careduce_step preloops)
              [] (reverse (level_triples loop_orders tasks))
    end in
  Block (s ++ [Task (last_task tasks)]).

(** *** make_reordered_loop *)

(** Lines 319-333: the <stride, index> pairs of [ovar]. *)
Definition fill_loops (ovar : string) (lo : loop_order) : list stmt :=
  mjoin ((λ '(i, ix),
            [ItSetFirst ovar
               match ix with
               | Dim d => abs_PyArray_STRIDES ovar d
               | X => Const 0
               end;
             ItSetSecond ovar i;
             ItIncr ovar])
         <$> enumerate lo).

(** Lines 361-376. *)
Definition get_loop_strides (lo : loop_order) (i : nat) : list expr :=
  (λ ix, match ix with
         | Dim d => Var (stride_ (lv i) d)
         | X => Const 0
         end) <$> lo.

(** [reversed(range(n))] *)
Definition reversed_range (n : nat) : list nat := reverse (seq 0 n).

(** Lines 313-341: the loops are ordered by (decreasing) absolute values
    of [ovar]'s strides. *)
Definition order_loops (ovar : string) (nnested : nat) (olo : loop_order)
  : list stmt :=
  [DeclLoops ovar nnested] ++ fill_loops ovar olo ++ [SortRev ovar].

(** Lines 344-357: the (sorted) total number of iterations of each loop. *)
Definition declare_totals (ovar : string) (nnested : nat)
    (init_loop_orders : list loop_order) : list stmt :=
  [DeclArray "init_totals" nnested]
  ++ compute_output_dims_lengths "init_totals" init_loop_orders
  ++ [ItBegin ovar]
  ++ mjoin ((λ i, [Assign (TOTAL_ i) (Index "init_totals" (it_second ovar));
                   ItIncr ovar]) <$> seq 0 nnested).

(** Lines 379-404: the strides in the initial order, then sorted. *)
Definition declare_strides (ovar : string) (nvars nnested : nat)
    (init_loop_orders : list loop_order) : list stmt :=
  let strides :=
    mjoin ((λ '(i, lo), get_loop_strides lo i)
           <$> filter (λ '(i, lo), 0 < length lo) (enumerate init_loop_orders)) in
  [DeclArray2 "init_strides" nvars nnested strides; DeclRit ovar]
  ++ mjoin ((λ i,
               [RitBegin ovar]
               ++ mjoin ((λ j,
                            [Assign (stride_l_ (lv i) j)
                                    (Index2 "init_strides" i (rit_second ovar));
                             RitIncr ovar])
                         <$> reversed_range nnested))
            <$> seq 0 nvars).

(** Lines 406-409. *)
Definition declare_iter (dtypes : list string) : list stmt :=
  (λ '(i, dtype), IterInit (lv i) dtype) <$> enumerate dtypes.

(** Lines 411-418. *)
Definition pointer_update (nnested : nat) (dtypes : list string) : list stmt :=
  (λ '(j, dtype),
     RefBind dtype (lv j)
       ((λ i, Mul (Var (stride_l_ (lv j) i)) (Var (ITER_ i)))
        <$> reversed_range nnested))
  <$> enumerate dtypes.

(** One turn of the loop of lines 421-441. *)
Definition reordered_loop_step (nnested : nat) (dtypes : list string)
    (openmp : bool) (loop : list stmt) (i : nat) : list stmt :=
  let total := Var (TOTAL_ i) in
  (* The pointers are defined only in the most inner loop *)
  let update :=
    if decide (i = nnested - 1) then pointer_update nnested dtypes else [] in
  let omp :=
    if decide (i = 0) then
      if openmp then Some (total, openmp_elemwise_minsize) else None
    else None in
  [For omp i total (update ++ loop)].

Definition reordered_loop (nnested : nat) (dtypes : list string)
    (inner_task : string) (openmp : bool) : list stmt :=
  foldl (reordered_loop_step nnested dtypes openmp)
        [Task inner_task] (reversed_range nnested).

Definition make_reordered_loop (init_loop_orders : list loop_order)
    (olv_index : nat) (dtypes : list string) (inner_task : string)
    (openmp : bool) : option stmt :=
  let nvars := length init_loop_orders in
  lo0 ← init_loop_orders !! 0;
  let nnested := length lo0 in
  let ovar := lv olv_index in
  olo ← init_loop_orders !! olv_index;
  Some (Block (order_loops ovar nnested olo
               ++ declare_totals ovar nnested init_loop_orders
               ++ declare_strides ovar nvars nnested init_loop_orders
               ++ declare_iter dtypes
               ++ reordered_loop nnested dtypes inner_task openmp)).

End Generators.

(** ** Runs of the emitted code *)

#[global] Instance index_countable : Countable index.
Proof.
  refine (inj_countable' (λ ix, match ix with X => None | Dim d => Some d end)
                         (λ o, match o with None => X | Some d => Dim d end) _).
  by intros [].
Defined.

#[global] Instance ident_countable : Countable ident.
Proof.
  refine (inj_countable'
    (λ x, match x with
          | n_ v d => inl (inl (v, d))
          | stride_ v d => inl (inr (v, d))
          | jump_ v ix j => inr (inl (inl (v, ix, j)))
          | ITER_ i => inr (inl (inr (inl i)))
          | TOTAL_ i => inr (inl (inr (inr i)))
          | stride_l_ v j => inr (inr (inl (v, j)))
          | elt_ a i => inr (inr (inr (inl (a, i))))
          | elt2_ a i k => inr (inr (inr (inr (a, i, k))))
          end)
    (λ y, match y with
          | inl (inl (v, d)) => n_ v d
          | inl (inr (v, d)) => stride_ v d
          | inr (inl (inl (v, ix, j))) => jump_ v ix j
          | inr (inl (inr (inl i))) => ITER_ i
          | inr (inl (inr (inr i))) => TOTAL_ i
          | inr (inr (inl (v, j))) => stride_l_ v j
          | inr (inr (inr (inl (a, i)))) => elt_ a i
          | inr (inr (inr (inr (a, i, k)))) => elt2_ a i k
          end) _).
  by intros [].
Defined.

(** What the emitted code sees of an operand: its shape and its strides
    (in bytes). *)
Record pyarray := PyArray {
  shape : list Z;
  strides : list Z
}.

(** A Python error set by the emitted code: the message (or format) and
    the values of the arguments of the format. *)
Definition pyerr : Type := string * list Z.

(** One run of a caller supplied fragment: its text, and for every operand
    the running pointer [var_iter] and the element [var_i] in scope. *)
Record event := Event {
  ev_code : string;
  ev_iter : gmap string Z;
  ev_ref : gmap string Z
}.

Record state := State {
  env : gmap ident Z;           (* the scalar variables *)
  iters : gmap string Z;        (* {var}_iter *)
  refs : gmap string Z;         (* {var}_i *)
  loops : list (Z * Z);         (* {ovar}_loops *)
  loops_it : nat;               (* {ovar}_loops_it - begin() *)
  loops_rit : nat;              (* {ovar}_loops_rit - rbegin() *)
  err : option pyerr;           (* the error indicator *)
  trace : list event
}.

Definition initial_state : state :=
  State ∅ ∅ ∅ [] 0 0 None [].

Definition set_env (f : gmap ident Z → gmap ident Z) (st : state) : state :=
  State (f (env st)) (iters st) (refs st) (loops st) (loops_it st)
        (loops_rit st) (err st) (trace st).
Definition set_iters (m : gmap string Z) (st : state) : state :=
  State (env st) m (refs st) (loops st) (loops_it st)
        (loops_rit st) (err st) (trace st).
Definition set_refs (m : gmap string Z) (st : state) : state :=
  State (env st) (iters st) m (loops st) (loops_it st)
        (loops_rit st) (err st) (trace st).
Definition set_loops (l : list (Z * Z)) (st : state) : state :=
  State (env st) (iters st) (refs st) l (loops_it st)
        (loops_rit st) (err st) (trace st).
Definition set_it (k : nat) (st : state) : state :=
  State (env st) (iters st) (refs st) (loops st) k
        (loops_rit st) (err st) (trace st).
Definition set_rit (k : nat) (st : state) : state :=
  State (env st) (iters st) (refs st) (loops st) (loops_it st)
        k (err st) (trace st).
Definition set_err (e : pyerr) (st : state) : state :=
  State (env st) (iters st) (refs st) (loops st) (loops_it st)
        (loops_rit st) (Some e) (trace st).
Definition log (ev : event) (st : state) : state :=
  State (env st) (iters st) (refs st) (loops st) (loops_it st)
        (loops_rit st) (err st) (trace st ++ [ev]).

(** The result of a run: normal completion, [%(fail)s] reached with the
    error indicator as it is then, or a run the model gives no meaning to
    (a variable read before it is set, an index out of range). *)
Inductive outcome :=
| Done (st : state)
| Failed (e : option pyerr)
| Undefined.

Definition bind_outcome (o : outcome) (k : state → outcome) : outcome :=
  match o with
  | Done st => k st
  | Failed e => Failed e
  | Undefined => Undefined
  end.

Definition of_option (o : option state) : outcome :=
  match o with Some st => Done st | None => Undefined end.

(** The order of [std::pair]: first components, then second components. *)
Definition pair_le (p q : Z * Z) : Prop :=
  (p.1 < q.1 ∨ (p.1 = q.1 ∧ p.2 ≤ q.2))%Z.

#[global] Instance pair_le_dec : RelDecision pair_le.
Proof. intros p q. unfold pair_le. apply _. Defined.

(** [std::sort(v.rbegin(), v.rend())]: the reversed vector is put in
    increasing order, so the vector itself is in decreasing order. *)
Definition sort_rev (v : list (Z * Z)) : list (Z * Z) :=
  merge_sort (flip pair_le) v.

(** [count] turns of a loop whose counter starts at [i] and moves by
    [step]. *)
Fixpoint turns (body : Z → state → outcome) (count : nat) (i step : Z)
    (st : state) : outcome :=
  match count with
  | O => Done st
  | S count' =>
      bind_outcome (body i st) (turns body count' (i + step)%Z step)
  end.

Section Runs.

(** The operands, by name, and the size of an element of each dtype. *)
Variable arrays : string → option pyarray.
Variable sizeof : string → Z.

Fixpoint eval (st : state) (e : expr) : option Z :=
  match e with
  | Const z => Some z
  | Var x => env st !! x
  | PyArray_NDIM var => a ← arrays var; Some (Z.of_nat (length (shape a)))
  | PyArray_DIMS var d => a ← arrays var; shape a !! d
  | PyArray_STRIDES_by_sizeof var d dtype =>
      a ← arrays var; s ← strides a !! d; Some (s `quot` sizeof dtype)%Z
  | abs_PyArray_STRIDES var d =>
      a ← arrays var; s ← strides a !! d; Some (Z.abs s)
  | Neg e => v ← eval st e; Some (- v)%Z
  | Sub e1 e2 => v1 ← eval st e1; v2 ← eval st e2; Some (v1 - v2)%Z
  | Mul e1 e2 => v1 ← eval st e1; v2 ← eval st e2; Some (v1 * v2)%Z
  | Index a e =>
      k ← eval st e;
      if decide (0 ≤ k)%Z then env st !! elt_ a (Z.to_nat k) else None
  | Index2 a i e =>
      k ← eval st e;
      if decide (0 ≤ k)%Z then env st !! elt2_ a i (Z.to_nat k) else None
  | it_second _ => p ← loops st !! loops_it st; Some p.2
  | rit_second _ =>
      if decide (loops_rit st < length (loops st)) then
        p ← loops st !! (length (loops st) - 1 - loops_rit st); Some p.2
      else None
  end.

Fixpoint holds (st : state) (c : cond) : option bool :=
  match c with
  | CLt a b => x ← eval st a; y ← eval st b; Some (bool_decide (x < y)%Z)
  | CNe a b => x ← eval st a; y ← eval st b; Some (bool_decide (x ≠ y))
  | CEq a b => x ← eval st a; y ← eval st b; Some (bool_decide (x = y))
  | COr c1 c2 => x ← holds st c1; y ← holds st c2; Some (x || y)
  end.

(** [int a[rows][cols] = { vs }]: the values fill the array row by row,
    what is left is zero. *)
Definition fill_array2 (a : string) (rows cols : nat) (vs : list Z)
    (m : gmap ident Z) : gmap ident Z :=
  foldl (λ m k, <[elt2_ a (k `div` cols) (k `mod` cols) := default 0%Z (vs !! k)]> m)
        m (seq 0 (rows * cols)).

Fixpoint exec (s : stmt) (st : state) {struct s} : outcome :=
  let exec_list :=
    fix exec_list (l : list stmt) (st : state) {struct l} : outcome :=
      match l with
      | [] => Done st
      | s' :: l' => bind_outcome (exec s' st) (exec_list l')
      end in
  (* a scope: the references bound inside are gone at its end *)
  let scope (body : list stmt) (st : state) : outcome :=
    bind_outcome (exec_list body st) (λ st', Done (set_refs (refs st) st')) in
  match s with
  | Assign x e =>
      of_option (v ← eval st e; Some (set_env <[x := v]> st))
  | If c thn els =>
      match holds st c with
      | Some true => exec_list thn st
      | Some false => exec_list els st
      | None => Undefined
      end
  | PyErr_SetString msg => Done (set_err (msg, []) st)
  | PyErr_Format fmt args =>
      of_option (vs ← mapM (eval st) args; Some (set_err (fmt, vs) st))
  | Fail => Failed (err st)
  | IterInit var _ => Done (set_iters (<[var := 0%Z]> (iters st)) st)
  | RefBind _ var terms =>
      of_option (p ← iters st !! var;
                 vs ← mapM (eval st) terms;
                 Some (set_refs (<[var := foldl Z.add p vs]> (refs st)) st))
  | IterAdvance var e =>
      of_option (p ← iters st !! var;
                 v ← eval st e;
                 Some (set_iters (<[var := (p + v)%Z]> (iters st)) st))
  | For _ i n body =>
      match eval st n with
      | Some n =>
          turns (λ k st, scope body (set_env <[ITER_ i := k]> st))
                (Z.to_nat n) 0 1 st
      | None => Undefined
      end
  | ForDown i n body =>
      match eval st n with
      | Some n =>
          if decide (0 ≤ n)%Z then
            turns (λ k st, scope body (set_env <[ITER_ i := k]> st))
                  (Z.to_nat n) n (-1) st
          else Undefined
      | None => Undefined
      end
  | Task code => Done (log (Event code (iters st) (refs st)) st)
  | Block body => scope body st
  | DeclLoops _ nnested =>
      Done (set_it 0 (set_loops (replicate nnested (0, 0)%Z) st))
  | ItSetFirst _ e =>
      of_option (v ← eval st e;
                 p ← loops st !! loops_it st;
                 Some (set_loops (<[loops_it st := (v, p.2)]> (loops st)) st))
  | ItSetSecond _ i =>
      of_option (p ← loops st !! loops_it st;
                 Some (set_loops (<[loops_it st := (p.1, Z.of_nat i)]> (loops st)) st))
  | ItIncr _ => Done (set_it (S (loops_it st)) st)
  | ItBegin _ => Done (set_it 0 st)
  | SortRev _ => Done (set_loops (sort_rev (loops st)) st)
  | DeclArray _ _ => Done st
  | DeclArray2 a rows cols init =>
      of_option (vs ← mapM (eval st) init;
                 Some (set_env (fill_array2 a rows cols vs) st))
  | DeclRit _ => Done st
  | RitBegin _ => Done (set_rit 0 st)
  | RitIncr _ => Done (set_rit (S (loops_rit st)) st)
  end.

Fixpoint exec_list (l : list stmt) (st : state) : outcome :=
  match l with
  | [] => Done st
  | s :: l' => bind_outcome (exec s st) (exec_list l')
  end.

End Runs.

(** ** Observations and reference definitions *)

(** The headers of the loops of a piece of emitted code, outermost first:
    the level, the bound, and the parallel hint (the expression compared
    with the minimum size, and that size). *)
Fixpoint for_loops (s : stmt) : list (nat * expr * option (expr * Z)) :=
  let go :=
    fix go (l : list stmt) : list (nat * expr * option (expr * Z)) :=
      match l with
      | [] => []
      | s' :: l' => for_loops s' ++ go l'
      end in
  match s with
  | For omp i n body => (i, n, omp) :: go body
  | ForDown i n body => (i, n, None) :: go body
  | Block body => go body
  | If _ thn els => go thn ++ go els
  | _ => []
  end.

Fixpoint for_loops_list (l : list stmt) : list (nat * expr * option (expr * Z)) :=
  match l with
  | [] => []
  | s :: l' => for_loops s ++ for_loops_list l'
  end.

(** The loops that carry a parallel hint. *)
Definition parallel_loops (s : stmt) : list (nat * expr * Z) :=
  omap (λ '(i, _, omp), (λ '(e, minsize), (i, e, minsize)) <$> omp) (for_loops s).

(** The recurrence of the jump table as the specification words it, from
    the innermost position outwards: a position is bound to a dimension of
    stride [s] and length [n], or broadcast.  The result is the jumps and
    the value of [adjust] left for the next outer level. *)
Fixpoint jump_table (bindings : list (option (Z * Z))) : list Z * Z :=
  match bindings with
  | [] => ([], 0%Z)
  | b :: inner =>
      let '(jumps, adjust) := jump_table inner in
      match b with
      | Some (s, n) => ((s - adjust)%Z :: jumps, (n * s)%Z)
      | None => ((- adjust)%Z :: jumps, 0%Z)
      end
  end.

(** The stride (in elements, as the emitted code computes it) and the
    length that an operand gives to an entry of its loop order. *)
Definition binding (sizeof : string → Z) (a : pyarray) (dtype : string)
    (ix : index) : option (Z * Z) :=
  match ix with
  | X => None
  | Dim d =>
      Some ((default 0 (strides a !! d) `quot` sizeof dtype)%Z,
            default 0%Z (shape a !! d))
  end.

(** The operands whose pointer is set before the loop of level [j]: those
    whose first entry that is not ['x'] is at position [j], and for level 0
    also those that have no such entry. *)
Definition preloop_level (lo : loop_order) : nat :=
  default 0 (first_dim_pos (enumerate lo)).

(** The positions that a fragment saw for operand [var], in order: the
    running pointer, and the element in scope. *)
Definition visits_iter (code var : string) (tr : list event) : list (option Z) :=
  (λ ev, ev_iter ev !! var) <$> filter (λ ev, ev_code ev = code) tr.

Definition visits_ref (code var : string) (tr : list event) : list (option Z) :=
  (λ ev, ev_ref ev !! var) <$> filter (λ ev, ev_code ev = code) tr.

(** The last entry of an enumerated column that is not ['x']: the operand
    and the dimension. *)
Fixpoint last_dim (indices : list (nat * index)) : option (nat * nat) :=
  match indices with
  | [] => None
  | (j, ix) :: rest =>
      match last_dim rest with
      | Some r => Some r
      | None => match ix with Dim d => Some (j, d) | X => None end
      end
  end.

(** The length variable of the last operand that a column binds to a
    dimension, and 1 when the column is all ['x']. *)
Definition suitable_length (lv : nat → string) (indices : list index) : expr :=
  match last_dim (enumerate indices) with
  | Some (j, d) => Var (n_ (lv j) d)
  | None => Const 1
  end.

(** The header of a loop over a column at level [t.1]: the bound, and the
    parallel hint on that bound when hints are requested. *)
Definition hinted_header (lv : nat → string) (openmp_elemwise_minsize : Z)
    (openmp : bool) (t : nat * ((string * string) * list index))
  : nat * expr * option (expr * Z) :=
  let n := suitable_length lv t.2.2 in
  (t.1, n, if openmp then Some (n, openmp_elemwise_minsize) else None).

(** The pointer initialisations of the operands that [preloop_level] puts
    at level [j], in operand order. *)
Definition inits_at (lv : nat → string) (j : nat)
    (operands : list (nat * (loop_order * string))) : list stmt :=
  mjoin ((λ '(i, (lo, dtype)),
            if decide (preloop_level lo = j) then [IterInit (lv i) dtype] else [])
         <$> operands).

(** Statements that contain no other statement. *)
Definition is_simple (s : stmt) : bool :=
  match s with
  | If _ _ _ | For _ _ _ _ | ForDown _ _ _ | Block _ => false
  | _ => true
  end.

(** The <stride, index> pairs of the reference operand as the specification
    words them: the absolute value of the stride of the dimension bound at
    each position (0 at a broadcast position), with the position. *)
Definition stride_pair (a : pyarray) (p : nat * index) : Z * Z :=
  (match p.2 with
   | Dim d => Z.abs (default 0%Z (strides a !! d))
   | X => 0%Z
   end,
   Z.of_nat p.1).

Definition stride_pairs (a : pyarray) (olo : loop_order) : list (Z * Z) :=
  stride_pair a <$> enumerate olo.

(** One pair comes strictly before another in the decreasing order:
    greater stride, or equal strides and greater position. *)
Definition pair_gt (p q : Z * Z) : Prop :=
  (q.1 < p.1 ∨ (q.1 = p.1 ∧ q.2 < p.2))%Z.

(** ** A concrete setting

    Three operands named [a], [b] and [c]: [a] is a C-contiguous 2 x 3
    array of doubles, [b] a vector of 3 doubles and [c] a vector of 4
    doubles. *)
Definition example_lv (i : nat) : string :=
  match i with
  | 0 => "a"
  | 1 => "b"
  | _ => "c"
  end.

Definition example_arrays (var : string) : option pyarray :=
  if decide (var = "a") then Some (PyArray [2; 3]%Z [24; 8]%Z)
  else if decide (var = "b") then Some (PyArray [3]%Z [8]%Z)
  else if decide (var = "c") then Some (PyArray [4]%Z [8]%Z)
  else None.

Definition example_sizeof (dtype : string) : Z := 8.

(** The trace of a run from the initial state. *)
Definition trace_of (arrays : string → option pyarray) (sizeof : string → Z)
    (code : list stmt) : option (list event) :=
  match exec_list arrays sizeof code initial_state with
  | Done st => Some (trace st)
  | _ => None
  end.

(** ** Reference definitions for the runs of the whole code *)

(** The offsets that a nest of loops over [dims] (pairs of a length and a
    stride, outermost first) presents, in order, starting from [base]. *)
Fixpoint walk (dims : list (Z * Z)) (base : Z) : list Z :=
  match dims with
  | [] => [base]
  | (n, s) :: inner =>
      k ← seq 0 (Z.to_nat n); walk inner (base + Z.of_nat k * s)%Z
  end.

(** The code that advances the pointers at the end of a turn of the loop
    of level [i] over the column [indices]. *)
Definition advances (lv : nat → string) (i : nat) (indices : list (nat * index))
  : list stmt :=
  (λ '(j, ix), IterAdvance (lv j) (Var (jump_ (lv j) ix i))) <$> indices.

Definition not_ITER (x : ident) : Prop :=
  match x with ITER_ _ => False | _ => True end.

(** The operand that a variable of the emitted code belongs to. *)
Definition var_of (x : ident) : option string :=
  match x with
  | n_ v _ | stride_ v _ | jump_ v _ _ | stride_l_ v _ => Some v
  | _ => None
  end.

(** What the initialisation of operand [var] leaves in the variables. *)
Definition operand_ready (sizeof : string → Z) (var dtype : string)
    (a : pyarray) (lo : loop_order) (st : state) : Prop :=
  (∀ d, Dim d ∈ lo →
     d < length (shape a) ∧
     env st !! n_ var d = shape a !! d ∧
     env st !! stride_ var d
     = Some (default 0 (strides a !! d) `quot` sizeof dtype)%Z) ∧
  (∀ i ix, lo !! i = Some ix →
     env st !! jump_ var ix i
     = (jump_table (binding sizeof a dtype <$> lo)).1 !! i).

(** The stride, in elements, with which an operand moves along a position
    of its loop order: 0 at a broadcast position. *)
Definition stride_of (sizeof : string → Z) (a : pyarray) (dtype : string)
    (ix : index) : Z :=
  match binding sizeof a dtype ix with
  | Some (s, _) => s
  | None => 0%Z
  end.

(** The number of turns of the loop over a column: the length of the
    dimension that the bound of the loop names, 1 for a column of ['x']. *)
Definition extent (arrays : string → option pyarray) (lv : nat → string)
    (col : list index) : Z :=
  match last_dim (enumerate col) with
  | Some (j, d) => default 0%Z (a ← arrays (lv j); shape a !! d)
  | None => 1%Z
  end.

Definition extents (arrays : string → option pyarray) (lv : nat → string)
    (los : list loop_order) : list Z :=
  extent arrays lv <$> zip_star los.

(** The loops as an operand sees them: the number of turns of each level
    with the stride of the operand at that level. *)
Definition operand_dims (arrays : string → option pyarray) (sizeof : string → Z)
    (lv : nat → string) (los : list loop_order) (a : pyarray) (dtype : string)
    (lo : loop_order) : list (Z * Z) :=
  zip (extents arrays lv los) (stride_of sizeof a dtype <$> lo).

(** ** Reference definitions for the declarations *)

(** The scalar variables and the pointers that a list of declarations
    declares, in order. *)
Definition declared_scalars (ds : list decl) : list ident :=
  omap (λ d, match d with DeclScalar _ x => Some x | DeclIter _ _ => None end) ds.

Definition declared_iters (ds : list decl) : list string :=
  omap (λ d, match d with DeclIter _ var => Some var | DeclScalar _ _ => None end) ds.

(** The variables that a piece of emitted code assigns, in order. *)
Fixpoint assigned (s : stmt) : list ident :=
  let go :=
    fix go (l : list stmt) : list ident :=
      match l with
      | [] => []
      | s' :: l' => assigned s' ++ go l'
      end in
  match s with
  | Assign x _ => [x]
  | If _ thn els => go thn ++ go els
  | For _ _ _ body | ForDown _ _ body | Block body => go body
  | _ => []
  end.

Fixpoint assigned_list (l : list stmt) : list ident :=
  match l with
  | [] => []
  | s :: l' => assigned s ++ assigned_list l'
  end.

(** The scalar variables of operand [var] with the loop order [lo] whose
    positions are counted from [k]. *)
Definition operand_scalars (var : string) (k : nat) (lo : list index) : list ident :=
  (n_ var <$> nonx lo) ++ (stride_ var <$> nonx lo)
  ++ ((λ '(j, ix), jump_ var ix j) <$> enumerate_from k lo).

(** The scalar variables that the code of all the operands works with. *)
Definition all_scalars (lv : nat → string)
    (operands : list (nat * (loop_order * string))) : list ident :=
  mjoin ((λ p, operand_scalars (lv p.1) 0 p.2.1) <$> operands).

(** * Properties *)

(** ** Lists *)

Lemma enumerate_from_lookup {A} (l : list A) k i :
  enumerate_from k l !! i = (λ a, (k + i, a)) <$> l !! i.
Proof.
  revert k i. induction l as [|a l IH]; intros k [|i]; simpl; try done.
  - by rewrite Nat.add_0_r.
  - rewrite IH. by replace (S k + i) with (k + S i) by lia.
Qed.

Lemma enumerate_lookup {A} (l : list A) i :
  enumerate l !! i = (λ a, (i, a)) <$> l !! i.
Proof. apply enumerate_from_lookup. Qed.

Lemma enumerate_from_length {A} (l : list A) k :
  length (enumerate_from k l) = length l.
Proof. revert k. induction l; intros; simpl; auto. Qed.

Lemma enumerate_from_app {A} (l1 l2 : list A) k :
  enumerate_from k (l1 ++ l2)
  = enumerate_from k l1 ++ enumerate_from (k + length l1) l2.
Proof.
  revert k. induction l1 as [|a l1 IH]; intros k; simpl.
  - by rewrite Nat.add_0_r.
  - rewrite IH. by replace (S k + length l1) with (k + S (length l1)) by lia.
Qed.

Lemma zip_star_cons_cons {A} (l l' : list A) ls :
  zip_star (l :: l' :: ls) = zip_with cons l (zip_star (l' :: ls)).
Proof. done. Qed.

(** Column [i] of [zip( *ls )] holds entry [i] of every row. *)
Lemma zip_star_lookup {A} (ls : list (list A)) i col :
  zip_star ls !! i = Some col →
  length col = length ls ∧ ∀ j, col !! j = ls !! j ≫= (.!! i).
Proof.
  revert col. induction ls as [|l ls IH]; intros col; [done|].
  destruct ls as [|l' ls].
  - simpl. rewrite list_lookup_fmap. destruct (l !! i) as [a|] eqn:Hl; [|done].
    intros [= <-]. split; [done|]. intros [|j]; simpl.
    + by rewrite Hl.
    + by destruct j.
  - rewrite zip_star_cons_cons, lookup_zip_with.
    destruct (l !! i) as [a|] eqn:Hl; [|done].
    destruct (zip_star (l' :: ls) !! i) as [c|] eqn:Hc; [|done].
    intros [= <-]. destruct (IH c eq_refl) as [Hlen Hcol]. split.
    + cbn [length] in *. by rewrite Hlen.
    + intros [|j]; [simpl; by rewrite Hl|]. apply (Hcol j).
Qed.

Lemma zip_star_lookup_is_Some {A} (ls : list (list A)) i :
  ls ≠ [] → (∀ l, l ∈ ls → i < length l) → is_Some (zip_star ls !! i).
Proof.
  induction ls as [|l ls IH]; [done|]. intros _ Hall.
  assert (is_Some (l !! i)) as [a Ha].
  { apply lookup_lt_is_Some, Hall. left. }
  destruct ls as [|l' ls].
  - simpl. rewrite list_lookup_fmap, Ha. by eexists.
  - destruct IH as [c Hc]; [done| |].
    + intros l0 Hl0. apply Hall. by right.
    + rewrite zip_star_cons_cons, lookup_zip_with, Ha, Hc. by eexists.
Qed.

(** ** Runs of the jump initialisation *)

Section Proofs.
Variable lv : nat → string.
Variable openmp_elemwise_minsize : Z.
Variable arrays : string → option pyarray.
Variable sizeof : string → Z.

Abbreviation run := (exec_list arrays sizeof).
Abbreviation value := (eval arrays sizeof).

Lemma exec_list_app l1 l2 st :
  run (l1 ++ l2) st = bind_outcome (run l1 st) (run l2).
Proof.
  revert st. induction l1 as [|s l1 IH]; intros st; simpl; [done|].
  destruct (exec arrays sizeof s st); simpl; auto.
Qed.

Lemma jump_fold_cons var dtype k ix inner :
  foldl (jump_step var dtype) ([], Const 0) (reverse (enumerate_from k (ix :: inner)))
  = jump_step var dtype
      (foldl (jump_step var dtype) ([], Const 0) (reverse (enumerate_from (S k) inner)))
      (k, ix).
Proof. simpl. by rewrite reverse_cons, foldl_app. Qed.

(** What running the jump initialisations of the positions [k], [k+1], ...
    establishes. *)
Definition jumps_ready (var dtype : string) (a : pyarray) (k : nat)
    (lo : loop_order) (adjust : expr) (st : state) : Prop :=
  (∀ j ix, lo !! j = Some ix →
     env st !! jump_ var ix (k + j)
     = (jump_table (binding sizeof a dtype <$> lo)).1 !! j) ∧
  (∀ d, Dim d ∈ lo →
     env st !! n_ var d = Some (default 0%Z (shape a !! d)) ∧
     env st !! stride_ var d
     = Some (default 0 (strides a !! d) `quot` sizeof dtype)%Z) ∧
  ((adjust = Const 0 ∧ (jump_table (binding sizeof a dtype <$> lo)).2 = 0%Z) ∨
   (∃ d, Dim d ∈ lo ∧ adjust = Mul (Var (n_ var d)) (Var (stride_ var d)) ∧
         (jump_table (binding sizeof a dtype <$> lo)).2
         = (default 0 (shape a !! d)
            * (default 0 (strides a !! d) `quot` sizeof dtype))%Z)).

Lemma jump_init_run var dtype a lo :
  arrays var = Some a →
  (∀ d, Dim d ∈ lo → is_Some (shape a !! d) ∧ is_Some (strides a !! d)) →
  ∀ k st,
    let r := foldl (jump_step var dtype) ([], Const 0)
                   (reverse (enumerate_from k lo)) in
    ∃ st', run r.1 st = Done st' ∧ jumps_ready var dtype a k lo r.2 st'.
Proof.
  intros Ha. induction lo as [|ix inner IH]; intros Hdims k st.
  - simpl. exists st. split; [done|]. repeat split.
    + intros j ix Hj. by destruct j.
    + by apply elem_of_nil in H.
    + by apply elem_of_nil in H.
    + by left.
  - rewrite jump_fold_cons. unfold jumps_ready in *.
    destruct (IH (λ d Hd, Hdims d (list_elem_of_further _ _ _ Hd)) (S k) st)
      as (st1 & Hrun & Hjumps & Hvars & Hadj).
    destruct (foldl _ _ (reverse (enumerate_from (S k) inner))) as [init adjust].
    cbn [fst snd] in Hrun, Hadj.
    cbn [fmap list_fmap jump_table]. fold (fmap (M:=list) (binding sizeof a dtype)).
    destruct (jump_table (binding sizeof a dtype <$> inner)) as [jumps adj] eqn:Htab.
    cbn [fst snd] in Hjumps, Hadj.
    assert (∀ st2, (∀ d, Dim d ∈ inner →
               env st2 !! n_ var d = Some (default 0%Z (shape a !! d)) ∧
               env st2 !! stride_ var d
               = Some (default 0 (strides a !! d) `quot` sizeof dtype)%Z) →
             value st2 adjust = Some adj) as Hval.
    { intros st2 Hst2. destruct Hadj as [[-> ->]|(d' & Hd' & -> & ->)]; [done|].
      destruct (Hst2 d' Hd') as [Hn Hs]. simpl. by rewrite Hn, Hs. }
    destruct ix as [|d]; cbn [jump_step binding fst snd].
    + (* a broadcast position *)
      rewrite exec_list_app, Hrun. cbn [bind_outcome exec_list exec of_option].
      cbn [eval]. rewrite (Hval st1 Hvars). cbn.
      eexists. split; [done|]. split; [|split].
      * intros [|j] ix Hj; cbn in Hj |- *.
        -- injection Hj as <-. rewrite Nat.add_0_r. by rewrite lookup_insert_eq.
        -- rewrite lookup_insert_ne by (intros [=]; lia).
           replace (k + S j) with (S k + j) by lia. by apply Hjumps.
      * intros d Hd. apply elem_of_cons in Hd as [[=]|Hd]. cbn.
        rewrite !lookup_insert_ne by done. by apply Hvars.
      * by left.
    + (* a position bound to dimension [d] *)
      destruct (Hdims d) as [[n Hn] [s Hs]]; [left|].
      rewrite exec_list_app, Hrun. cbn [bind_outcome exec_list exec of_option eval].
      rewrite Ha. cbn [mbind option_bind]. rewrite Hn, Hs. cbn [mbind option_bind of_option bind_outcome].
      set (st2 := set_env <[stride_ var d := (s `quot` sizeof dtype)%Z]>
                    (set_env <[n_ var d := n]> st1)).
      assert (∀ d', Dim d' ∈ Dim d :: inner →
                env st2 !! n_ var d' = Some (default 0%Z (shape a !! d')) ∧
                env st2 !! stride_ var d'
                = Some (default 0 (strides a !! d') `quot` sizeof dtype)%Z) as Hvars2.
      { intros d' Hd'. subst st2. cbn.
        destruct (decide (d' = d)) as [->|Hne].
        - rewrite lookup_insert_ne by done. rewrite !lookup_insert_eq.
          by rewrite Hn, Hs.
        - rewrite !lookup_insert_ne by congruence.
          apply elem_of_cons in Hd' as [[=]|Hd']; [done|]. by apply Hvars. }
      destruct (Hvars2 d) as [Hn2 Hs2]; [left|].
      cbn [exec of_option eval]. rewrite Hs2.
      rewrite (Hval st2 (λ d' Hd', Hvars2 d' (list_elem_of_further _ _ _ Hd'))).
      cbn [mbind option_bind of_option bind_outcome].
      eexists. split; [done|]. split; [|split].
      * intros [|j] ix Hj; cbn in Hj |- *.
        -- injection Hj as <-. rewrite Nat.add_0_r, lookup_insert_eq.
           by rewrite Hs.
        -- rewrite lookup_insert_ne by (intros [=]; lia).
           replace (k + S j) with (S k + j) by lia.
           etrans; [|apply (Hjumps j ix Hj)].
           subst st2. cbn. by rewrite !lookup_insert_ne by done.
      * intros d' Hd'. destruct (Hvars2 d' Hd') as [Hn' Hs']. cbn.
        split; (rewrite lookup_insert_ne by done); assumption.
      * right. exists d. split; [left|]. split; [done|]. by rewrite Hn, Hs.
Qed.


Lemma jump_table_length bs : length (jump_table bs).1 = length bs.
Proof.
  induction bs as [|b bs IH]; [done|]. simpl.
  destruct (jump_table bs) as [jumps adjust]. destruct b as [[s n]|]; simpl in *; lia.
Qed.

(** ** The rank check *)

Lemma elem_of_nonx lo d : d ∈ nonx lo ↔ Dim d ∈ lo.
Proof.
  unfold nonx. rewrite list_elem_of_omap. split.
  - intros ([|d'] & Hin & Heq); simplify_eq. done.
  - intros Hin. exists (Dim d). done.
Qed.

Lemma py_max_ge l d : d ∈ l → d ≤ py_max l.
Proof.
  induction l as [|x l IH]; intros Hin; [by apply elem_of_nil in Hin|].
  apply elem_of_cons in Hin as [->|Hin]; simpl; [lia|].
  specialize (IH Hin). lia.
Qed.

Lemma py_max_elem_of l : l ≠ [] → py_max l ∈ l.
Proof.
  induction l as [|x l IH]; [done|]. intros _. simpl.
  destruct l as [|y l].
  - simpl. rewrite Nat.max_0_r. left.
  - destruct (Nat.max_spec x (py_max (y :: l))) as [[_ ->]|[_ ->]].
    + right. by apply IH.
    + left.
Qed.

(** The greatest dimension index of a loop order is what [max(nonx)] is. *)
Lemma py_max_nonx lo m :
  Dim m ∈ lo → (∀ d, Dim d ∈ lo → d ≤ m) → py_max (nonx lo) = m.
Proof.
  intros Hm Hmax. apply Nat.le_antisymm.
  - apply Hmax, elem_of_nonx, py_max_elem_of.
    intros Hnil. apply elem_of_nonx in Hm. rewrite Hnil in Hm.
    by apply elem_of_nil in Hm.
  - by apply py_max_ge, elem_of_nonx.
Qed.

Lemma rank_check_shape var lo m :
  Dim m ∈ lo → (∀ d, Dim d ∈ lo → d ≤ m) →
  rank_check var lo
  = [If (CLt (PyArray_NDIM var) (Const (Z.of_nat (m + 1))))
        [PyErr_SetString not_enough_dimensions_msg; Fail] []].
Proof.
  intros Hm Hmax. unfold rank_check. rewrite (py_max_nonx lo m) by done.
  destruct (nonx lo) eqn:Hnonx; [|done].
  apply elem_of_nonx in Hm. rewrite Hnonx in Hm. by apply elem_of_nil in Hm.
Qed.

Lemma rank_check_all_x var lo :
  (∀ ix, ix ∈ lo → ix = X) → rank_check var lo = [].
Proof.
  intros Hall. unfold rank_check. destruct (nonx lo) as [|d l] eqn:Hnonx; [done|].
  assert (Dim d ∈ lo) as Hd by (apply elem_of_nonx; rewrite Hnonx; left).
  by apply Hall in Hd.
Qed.

Lemma rank_check_run var lo a m st :
  arrays var = Some a →
  Dim m ∈ lo → (∀ d, Dim d ∈ lo → d ≤ m) →
  run (rank_check var lo) st
  = if decide (length (shape a) < m + 1)
    then Failed (Some (not_enough_dimensions_msg, []))
    else Done st.
Proof.
  intros Ha Hm Hmax. rewrite (rank_check_shape var lo m) by done.
  cbn. rewrite Ha. cbn.
  destruct (decide (length (shape a) < m + 1)).
  - rewrite bool_decide_eq_true_2 by lia. done.
  - rewrite bool_decide_eq_false_2 by lia. done.
Qed.

Lemma rank_check_run_ok var lo a st :
  arrays var = Some a →
  (∀ d, Dim d ∈ lo → d < length (shape a)) →
  run (rank_check var lo) st = Done st.
Proof.
  intros Ha Hrank. destruct (nonx lo) as [|d0 l] eqn:Hnonx.
  - unfold rank_check. by rewrite Hnonx.
  - assert (Dim (py_max (nonx lo)) ∈ lo) as Hm.
    { apply elem_of_nonx, py_max_elem_of. by rewrite Hnonx. }
    rewrite (rank_check_run var lo a (py_max (nonx lo))); [|done..|].
    + specialize (Hrank _ Hm). by rewrite decide_False by lia.
    + intros d Hd. by apply py_max_ge, elem_of_nonx.
Qed.



(** ** The dimension checks *)

Lemma to_compare_from_elem_of k (l : list index) j x :
  (j, x) ∈ omap (λ '(j, ix), match ix with X => None | Dim x => Some (j, x) end)
                (enumerate_from k l)
  ↔ k ≤ j ∧ l !! (j - k) = Some (Dim x).
Proof.
  rewrite list_elem_of_omap. split.
  - intros ([j' [|x']] & Hin & Heq); simplify_eq.
    apply list_elem_of_lookup in Hin as [p Hp].
    rewrite enumerate_from_lookup in Hp.
    destruct (l !! p) as [ix|] eqn:Hlp; simplify_eq/=.
    split; [lia|]. by replace (k + p - k) with p by lia.
  - intros [Hle Hl]. exists (j, Dim x). split; [|done].
    apply list_elem_of_lookup. exists (j - k).
    rewrite enumerate_from_lookup, Hl. simpl. f_equal. f_equal. lia.
Qed.

Lemma to_compare_elem_of matches j x :
  (j, x) ∈ to_compare matches ↔ matches !! j = Some (Dim x).
Proof.
  unfold to_compare, enumerate. rewrite to_compare_from_elem_of.
  rewrite Nat.sub_0_r. intuition lia.
Qed.

(** The first pair of [to_compare] is the first concrete binding, and the
    pairs that follow belong to later operands. *)
Lemma to_compare_from_head k (l : list index) j0 x0 rest :
  omap (λ '(j, ix), match ix with X => None | Dim x => Some (j, x) end)
       (enumerate_from k l) = (j0, x0) :: rest →
  k ≤ j0 ∧ l !! (j0 - k) = Some (Dim x0) ∧
  (∀ j', j' < j0 - k → l !! j' = Some X) ∧
  (∀ j x, (j, x) ∈ rest ↔ j0 < j ∧ l !! (j - k) = Some (Dim x)).
Proof.
  revert k. induction l as [|ix l IH]; intros k; [done|].
  destruct ix as [|d]; cbn [enumerate_from omap list_omap].
  - intros Heq. destruct (IH (S k) Heq) as (Hle & Hj0 & Hbefore & Hrest).
    split; [lia|]. split; [|split].
    + by replace (j0 - k) with (S (j0 - S k)) by lia.
    + intros [|j'] Hlt; [done|]. apply Hbefore. lia.
    + intros j x. rewrite Hrest. split; intros [Hlt Hl]; (split; [done|]).
      * by replace (j - k) with (S (j - S k)) by lia.
      * by replace (j - k) with (S (j - S k)) in Hl by lia.
  - intros [= <- <- <-]. split; [done|]. rewrite Nat.sub_diag.
    split; [done|]. split; [intros j' Hlt; lia|].
    intros j x. rewrite to_compare_from_elem_of. split.
    + intros [Hle Hl]. split; [lia|].
      by replace (j - k) with (S (j - S k)) by lia.
    + intros [Hlt Hl]. split; [lia|].
      by replace (j - k) with (S (j - S k)) in Hl by lia.
Qed.

Lemma to_compare_head matches j0 x0 rest :
  to_compare matches = (j0, x0) :: rest →
  matches !! j0 = Some (Dim x0) ∧
  (∀ j', j' < j0 → matches !! j' = Some X) ∧
  (∀ j x, (j, x) ∈ rest ↔ j0 < j ∧ matches !! j = Some (Dim x)).
Proof.
  intros Heq. apply to_compare_from_head in Heq as (_ & Hj0 & Hbefore & Hrest).
  rewrite Nat.sub_0_r in *. split; [done|]. split; [done|].
  intros j x. rewrite Hrest. by rewrite Nat.sub_0_r.
Qed.

(** The first concrete binding of a column is unique. *)
Lemma first_concrete_unique (matches : list index) j0 x0 j1 x1 :
  matches !! j0 = Some (Dim x0) → (∀ j', j' < j0 → matches !! j' = Some X) →
  matches !! j1 = Some (Dim x1) → (∀ j', j' < j1 → matches !! j' = Some X) →
  j0 = j1 ∧ x0 = x1.
Proof.
  intros H0 B0 H1 B1.
  assert (j0 = j1) as ->.
  { destruct (Nat.lt_trichotomy j0 j1) as [Hlt|[->|Hlt]]; [|done|].
    - specialize (B1 _ Hlt). congruence.
    - specialize (B0 _ Hlt). congruence. }
  split; [done|]. congruence.
Qed.

(** What one emitted check does. *)
Lemma dim_check_run j0 x0 j x st :
  exec arrays sizeof (dim_check lv j0 x0 j x) st
  = match env st !! n_ (lv j0) x0, env st !! n_ (lv j) x with
    | Some a, Some b =>
        if decide (a = b) then Done st
        else Failed (Some (if decide (a = 1 ∨ b = 1)%Z
                           then runtime_broadcast_error_msg
                           else dimension_mismatch_msg,
                           [Z.of_nat j0; Z.of_nat x0; a;
                            Z.of_nat j; Z.of_nat x; b]))
    | _, _ => Undefined
    end.
Proof.
  unfold dim_check. cbn [exec holds eval].
  destruct (env st !! n_ (lv j0) x0) as [a|] eqn:Ha; [|done].
  destruct (env st !! n_ (lv j) x) as [b|] eqn:Hb; [|done].
  cbn [mbind option_bind].
  destruct (decide (a = b)) as [->|Hne].
  - by rewrite bool_decide_eq_false_2 by (intros ?; done).
  - rewrite bool_decide_eq_true_2 by done.
    cbn [bind_outcome].
    destruct (decide (a = 1 ∨ b = 1)%Z) as [Hone|Hnone].
    + assert (bool_decide (a = 1%Z) || bool_decide (b = 1%Z) = true) as ->.
      { destruct Hone as [->| ->]; [done|]. by rewrite orb_true_r. }
      cbn. by rewrite Ha, Hb.
    + assert (bool_decide (a = 1%Z) || bool_decide (b = 1%Z) = false) as ->.
      { rewrite !bool_decide_eq_false_2 by tauto. done. }
      cbn. by rewrite Ha, Hb.
Qed.

Lemma messages_differ : runtime_broadcast_error_msg ≠ dimension_mismatch_msg.
Proof. done. Qed.

(** The checks of a column, given its first concrete binding. *)
Lemma checks_of_matches_elem_of matches j0 x0 c :
  matches !! j0 = Some (Dim x0) → (∀ j', j' < j0 → matches !! j' = Some X) →
  c ∈ checks_of_matches lv matches
  ↔ ∃ j x, j0 < j ∧ matches !! j = Some (Dim x) ∧ c = dim_check lv j0 x0 j x.
Proof.
  intros Hj0 Hbefore. unfold checks_of_matches.
  destruct (to_compare matches) as [|[j1 x1] rest] eqn:Htc.
  { apply to_compare_elem_of in Hj0. rewrite Htc in Hj0.
    by apply elem_of_nil in Hj0. }
  apply to_compare_head in Htc as (Hj1 & Hbefore1 & Hrest).
  destruct (first_concrete_unique matches j0 x0 j1 x1) as [<- <-]; [done..|].
  assert (c ∈ (λ '(j, x), dim_check lv j0 x0 j x) <$> rest
          ↔ ∃ j x, j0 < j ∧ matches !! j = Some (Dim x)
                   ∧ c = dim_check lv j0 x0 j x) as Hfmap.
  { rewrite list_elem_of_fmap. split.
    - intros ([j x] & -> & Hin). apply Hrest in Hin as [Hlt Hl]. eauto.
    - intros (j & x & Hlt & Hl & ->). exists (j, x). split; [done|].
      apply Hrest. done. }
  destruct rest as [|p rest']; [|done].
  rewrite <- Hfmap. done.
Qed.

Lemma make_checks_check_elem_of los c :
  c ∈ make_checks_check lv los
  ↔ ∃ i matches, zip_star los !! i = Some matches
                 ∧ c ∈ checks_of_matches lv matches.
Proof.
  unfold make_checks_check. rewrite list_elem_of_join. split.
  - intros (l & Hc & Hl). apply list_elem_of_fmap in Hl as (matches & -> & Hin).
    apply list_elem_of_lookup in Hin as [i Hi]. eauto.
  - intros (i & matches & Hi & Hc). exists (checks_of_matches lv matches).
    split; [done|]. apply list_elem_of_fmap. exists matches. split; [done|].
    apply list_elem_of_lookup. eauto.
Qed.

Lemma checks_of_matches_inv matches c :
  c ∈ checks_of_matches lv matches →
  ∃ j0 x0 j x,
    matches !! j0 = Some (Dim x0) ∧ (∀ j', j' < j0 → matches !! j' = Some X) ∧
    j0 < j ∧ matches !! j = Some (Dim x) ∧ c = dim_check lv j0 x0 j x.
Proof.
  intros Hc.
  destruct (to_compare matches) as [|[j0 x0] rest] eqn:Htc.
  { unfold checks_of_matches in Hc. rewrite Htc in Hc.
    by apply elem_of_nil in Hc. }
  apply to_compare_head in Htc as (Hj0 & Hbefore & _).
  destruct (proj1 (checks_of_matches_elem_of matches j0 x0 c Hj0 Hbefore) Hc)
    as (j & x & Hlt & Hj & ->).
  by exists j0, x0, j, x.
Qed.

Lemma checks_of_matches_few matches :
  (∀ j1 x1 j2 x2,
     matches !! j1 = Some (Dim x1) → matches !! j2 = Some (Dim x2) → j1 = j2) →
  checks_of_matches lv matches = [].
Proof.
  intros Hfew. destruct (checks_of_matches lv matches) as [|c l] eqn:Hchecks; [done|].
  assert (c ∈ checks_of_matches lv matches) as Hc by (rewrite Hchecks; left).
  apply checks_of_matches_inv in Hc as (j0 & x0 & j & x & Hfst & _ & Hlt & Hj & _).
  specialize (Hfew _ _ _ _ Hfst Hj). lia.
Qed.

(** C3: every check emitted for the lengths compares two operands [j0] and
    [j] that are bound to dimensions [x0] and [x] at one position of their
    loop orders.  When the two lengths differ the check fails, with the
    "Runtime broadcasting not allowed" format exactly when one of the two
    lengths is 1 and with the "Input dimension mismatch" format exactly when
    neither is; the arguments of the format are the two operand indices,
    the two dimension indices and the two lengths. *)
Theorem length_error_kinds los c :
  c ∈ make_checks_check lv los →
  ∃ i j0 x0 j x,
    los !! j0 ≫= (.!! i) = Some (Dim x0) ∧
    los !! j ≫= (.!! i) = Some (Dim x) ∧
    ∀ st a b,
      env st !! n_ (lv j0) x0 = Some a →
      env st !! n_ (lv j) x = Some b →
      a ≠ b →
      ∃ fmt,
        exec arrays sizeof c st
        = Failed (Some (fmt, [Z.of_nat j0; Z.of_nat x0; a;
                              Z.of_nat j; Z.of_nat x; b])) ∧
        (fmt = runtime_broadcast_error_msg ↔ (a = 1 ∨ b = 1)%Z) ∧
        (fmt = dimension_mismatch_msg ↔ (a ≠ 1 ∧ b ≠ 1)%Z).
Proof.
  intros Hc. apply make_checks_check_elem_of in Hc as (i & matches & Hi & Hc).
  apply checks_of_matches_inv in Hc as (j0 & x0 & j & x & Hfst & _ & _ & Hj & ->).
  apply zip_star_lookup in Hi as [_ Hcol].
  exists i, j0, x0, j, x. rewrite <- !Hcol. split; [done|]. split; [done|].
  intros st a b Ha Hb Hne. rewrite dim_check_run, Ha, Hb.
  rewrite decide_False by done. eexists. split; [done|].
  pose proof messages_differ as Hmsg.
  destruct (decide (a = 1 ∨ b = 1)%Z) as [Hone|Hnone]; split; split;
    try done; try tauto; intros Heq; by rewrite Heq in Hmsg.
Qed.

(** C9: in a column with fewer than two concrete bindings no check is
    emitted.  Otherwise, with [j0] the first operand that has a concrete
    binding in the column, the checks are exactly one per later operand [j]
    with a concrete binding, each comparing [j] with [j0]; no check compares
    two later operands, and the error of a check that fails names [j0] and
    its dimension first. *)
Theorem checks_compare_with_first los i matches :
  zip_star los !! i = Some matches →
  ((∀ j1 x1 j2 x2,
      matches !! j1 = Some (Dim x1) → matches !! j2 = Some (Dim x2) → j1 = j2) →
   checks_of_matches lv matches = []) ∧
  (∀ j0 x0,
     matches !! j0 = Some (Dim x0) → (∀ j', j' < j0 → matches !! j' = Some X) →
     (∀ c, c ∈ checks_of_matches lv matches
           ↔ ∃ j x, j0 < j ∧ matches !! j = Some (Dim x)
                    ∧ c = dim_check lv j0 x0 j x) ∧
     (∀ c st e,
        c ∈ checks_of_matches lv matches →
        exec arrays sizeof c st = Failed e →
        ∃ fmt a j x b,
          e = Some (fmt, [Z.of_nat j0; Z.of_nat x0; a;
                          Z.of_nat j; Z.of_nat x; b]))) ∧
  (∀ c, c ∈ checks_of_matches lv matches → c ∈ make_checks_check lv los).
Proof.
  intros Hi. split; [apply checks_of_matches_few|]. split.
  - intros j0 x0 Hj0 Hbefore. split; [intros c; by apply checks_of_matches_elem_of|].
    intros c st e Hc Hrun.
    destruct (proj1 (checks_of_matches_elem_of matches j0 x0 c Hj0 Hbefore) Hc)
      as (j & x & _ & _ & ->).
    rewrite dim_check_run in Hrun.
    destruct (env st !! n_ (lv j0) x0) as [a|]; [|done].
    destruct (env st !! n_ (lv j) x) as [b|]; [|done].
    destruct (decide (a = b)); [done|]. injection Hrun as <-. eauto 10.
  - intros c Hc. apply make_checks_check_elem_of. eauto.
Qed.

(** ** The output shape *)

Lemma borrow_length_from k (l : list index) :
  (∀ j d, l !! j = Some (Dim d) → (∀ j', j' < j → l !! j' = Some X) →
     borrow_length lv (enumerate_from k l) = Var (n_ (lv (k + j)) d)) ∧
  ((∀ ix, ix ∈ l → ix = X) →
     borrow_length lv (enumerate_from k l) = Const 1).
Proof.
  revert k. induction l as [|ix l IH]; intros k.
  - split; [intros j d Hj; by destruct j|done].
  - destruct (IH (S k)) as [IHdim IHx]. split.
    + intros j d Hj Hbefore. destruct ix as [|d0]; cbn [enumerate_from borrow_length].
      * destruct j as [|j]; [done|]. replace (k + S j) with (S k + j) by lia.
        apply IHdim; [done|]. intros j' Hlt. apply (Hbefore (S j')). lia.
      * destruct j as [|j].
        -- injection Hj as ->. by rewrite Nat.add_0_r.
        -- specialize (Hbefore 0). cbn in Hbefore. discriminate Hbefore. lia.
    + intros Hall. rewrite (Hall ix) by left. cbn [enumerate_from borrow_length].
      apply IHx. intros ix' Hin. apply Hall. by right.
Qed.

Lemma compute_output_dims_lengths_length array_name los :
  length (compute_output_dims_lengths lv array_name los) = length (zip_star los).
Proof.
  unfold compute_output_dims_lengths, enumerate.
  by rewrite length_fmap, enumerate_from_length.
Qed.

(** C4: for every position [i] of the loop orders the emitted code sets
    [array_name[i]] to the length variable of the first operand (in operand
    order) whose loop order has a dimension at position [i], and to 1 when
    every operand has ['x'] there. *)
Theorem output_dims_lengths array_name los i candidates :
  zip_star los !! i = Some candidates →
  (∀ j, candidates !! j = los !! j ≫= (.!! i)) ∧
  ∃ e,
    compute_output_dims_lengths lv array_name los !! i
    = Some (Assign (elt_ array_name i) e) ∧
    (∀ j d, candidates !! j = Some (Dim d) →
            (∀ j', j' < j → candidates !! j' = Some X) →
            e = Var (n_ (lv j) d)) ∧
    ((∀ ix, ix ∈ candidates → ix = X) → e = Const 1).
Proof.
  intros Hi. split; [by apply zip_star_lookup|].
  exists (borrow_length lv (enumerate candidates)). split.
  - unfold compute_output_dims_lengths.
    by rewrite list_lookup_fmap, enumerate_lookup, Hi.
  - destruct (borrow_length_from 0 candidates) as [Hdim Hx]. split; [|done].
    intros j d Hj Hbefore. by apply (Hdim j d).
Qed.

(** ** The loop nests *)

Lemma for_loops_list_app l1 l2 :
  for_loops_list (l1 ++ l2) = for_loops_list l1 ++ for_loops_list l2.
Proof.
  induction l1 as [|s l1 IH]; [done|]. simpl. by rewrite IH, (assoc_L (++)).
Qed.

Lemma for_loops_list_simple l :
  Forall (λ s, is_simple s = true) l → for_loops_list l = [].
Proof.
  induction 1 as [|s l Hs _ IH]; [done|]. simpl. rewrite IH.
  by destruct s.
Qed.

Lemma for_loops_For omp i n body :
  for_loops (For omp i n body) = (i, n, omp) :: for_loops_list body.
Proof. reflexivity. Qed.

Lemma for_loops_ForDown i n body :
  for_loops (ForDown i n body) = (i, n, None) :: for_loops_list body.
Proof. reflexivity. Qed.

Lemma for_loops_Block body : for_loops (Block body) = for_loops_list body.
Proof. reflexivity. Qed.

Lemma foldlM_snoc {A B} (f : B → A → option B) b l a :
  foldlM f b (l ++ [a]) = foldlM f b l ≫= λ b', f b' a.
Proof.
  revert b. induction l as [|x l IH]; intros b; simpl.
  - by destruct (f b a).
  - destruct (f b x) as [b'|]; simpl; [apply IH|done].
Qed.

(** *** The pointer initialisations before the loops *)

Lemma preloops_fold j operands (m : gmap nat (list stmt)) :
  default [] (foldl (preloops_step lv) m operands !! j)
  = default [] (m !! j) ++ inits_at lv j operands.
Proof.
  revert m. induction operands as [|[i [lo dtype]] operands IH]; intros m.
  - simpl. by rewrite app_nil_r.
  - cbn [foldl]. rewrite IH. unfold inits_at at 2. cbn [fmap list_fmap mjoin list_join].
    fold (inits_at lv j operands). rewrite (assoc_L (++)). f_equal.
    unfold preloops_step, preloop_level, setdefault_add.
    destruct (first_dim_pos (enumerate lo)) as [p|]; cbn [default];
      (case_decide as Hp; [subst; by rewrite lookup_insert_eq|
                           rewrite lookup_insert_ne by done; by rewrite app_nil_r]).
Qed.

Lemma make_preloops_lookup los dtypes j :
  default [] (make_preloops lv los dtypes !! j)
  = inits_at lv j (enumerate (zip los dtypes)).
Proof. unfold make_preloops. by rewrite preloops_fold, lookup_empty. Qed.

Lemma inits_at_simple j operands :
  Forall (λ s, is_simple s = true) (inits_at lv j operands).
Proof.
  induction operands as [|[i [lo dtype]] operands IH]; [constructor|].
  unfold inits_at. cbn [fmap list_fmap mjoin list_join]. apply Forall_app. split; [|done].
  case_decide; repeat constructor.
Qed.

(** *** The bound of a level *)

Lemma last_dim_from_spec k (l : list index) :
  (∀ j d, l !! j = Some (Dim d) →
          (∀ j', j < j' → l !! j' ≠ None → l !! j' = Some X) →
          last_dim (enumerate_from k l) = Some (k + j, d)) ∧
  ((∀ ix, ix ∈ l → ix = X) → last_dim (enumerate_from k l) = None).
Proof.
  revert k. induction l as [|ix l IH]; intros k.
  - split; [intros j d Hj; by destruct j|done].
  - destruct (IH (S k)) as [IHdim IHx]. split.
    + intros j d Hj Hafter. cbn [enumerate_from last_dim]. destruct j as [|j].
      * injection Hj as ->. rewrite IHx, Nat.add_0_r; [done|].
        intros ix Hin. apply list_elem_of_lookup in Hin as [p Hp].
        specialize (Hafter (S p)).
        change ((_ :: l) !! S p) with (l !! p) in Hafter. rewrite Hp in Hafter.
        assert (Some ix = Some X) as [= ->]; [|done].
        apply Hafter; [lia|done].
      * rewrite (IHdim j d); [by replace (S k + j) with (k + S j) by lia|done|].
        intros j' Hlt. apply (Hafter (S j')). lia.
    + intros Hall. cbn [enumerate_from last_dim]. rewrite IHx, (Hall ix); [done|left|].
      intros ix' Hin. apply Hall. by right.
Qed.

(** The bound of a level of [make_loop]. *)
Lemma loop_over_fold dtypes i k indices update suitable_n r :
  foldlM (loop_over_step lv dtypes i) (update, suitable_n) (enumerate_from k indices)
  = Some r →
  Forall (λ s, is_simple s = true) update →
  Forall (λ s, is_simple s = true) r.1 ∧
  r.2 = match last_dim (enumerate_from k indices) with
        | Some (j, d) => Var (n_ (lv j) d)
        | None => suitable_n
        end.
Proof.
  revert k update suitable_n. induction indices as [|ix l IH]; intros k update sn.
  - intros [= <-]. done.
  - cbn [enumerate_from foldlM loop_over_step].
    destruct (dtypes !! k) as [dtype|]; [|done]. cbn [mbind option_bind].
    intros Hfold Hsimple. apply IH in Hfold as [Hr1 Hr2].
    + split; [done|]. rewrite Hr2. cbn [last_dim].
      destruct (last_dim (enumerate_from (S k) l)) as [[j d]|]; [done|].
      by destruct ix.
    + apply Forall_app. split; [done|]. by repeat constructor.
Qed.

(** The bound of a level of [make_loop_careduce]. *)
Lemma loop_over_careduce_fold i k indices update suitable_n :
  Forall (λ s, is_simple s = true) update →
  let r := foldl (loop_over_careduce_step lv i) (update, suitable_n)
                 (enumerate_from k indices) in
  Forall (λ s, is_simple s = true) r.1 ∧
  r.2 = match last_dim (enumerate_from k indices) with
        | Some (j, d) => Var (n_ (lv j) d)
        | None => suitable_n
        end.
Proof.
  revert k update suitable_n. induction indices as [|ix l IH]; intros k update sn Hsimple.
  - done.
  - cbn [enumerate_from foldl loop_over_careduce_step].
    edestruct IH as [Hr1 Hr2]; [|split; [exact Hr1|]].
    + apply Forall_app. split; [exact Hsimple|]. by repeat constructor.
    + rewrite Hr2. cbn [last_dim].
      destruct (last_dim (enumerate_from (S k) l)) as [[j d]|]; [done|].
      by destruct ix.
Qed.

Lemma suitable_length_spec indices :
  (∀ j d, indices !! j = Some (Dim d) →
          (∀ j', j < j' → indices !! j' ≠ None → indices !! j' = Some X) →
          suitable_length lv indices = Var (n_ (lv j) d)) ∧
  ((∀ ix, ix ∈ indices → ix = X) → suitable_length lv indices = Const 1).
Proof.
  destruct (last_dim_from_spec 0 indices) as [Hdim Hx]. unfold suitable_length, enumerate.
  split.
  - intros j d Hj Hafter. by rewrite (Hdim j d).
  - intros Hall. by rewrite Hx.
Qed.

Lemma loop_over_for_loops dtypes openmp preloop code indices i s :
  loop_over lv openmp_elemwise_minsize dtypes openmp preloop code indices i = Some s →
  Forall (λ s, is_simple s = true) preloop →
  for_loops_list s
  = hinted_header lv openmp_elemwise_minsize openmp (i, (("", ""), indices)) :: for_loops_list code.
Proof.
  unfold loop_over. intros Hs Hpre.
  destruct (foldlM _ _ _) as [[update sn]|] eqn:Hfold; [|done].
  apply loop_over_fold in Hfold as [Hupd Hsn]; [|constructor].
  cbn [mbind option_bind] in Hs. injection Hs as <-. cbn [fst snd] in *.
  rewrite for_loops_list_app, (for_loops_list_simple preloop) by done.
  cbn [app for_loops_list]. rewrite for_loops_For, for_loops_list_app.
  rewrite (for_loops_list_simple update) by done.
  rewrite app_nil_r. cbn [app]. f_equal. unfold hinted_header, suitable_length.
  cbn [fst snd]. by rewrite Hsn.
Qed.

Lemma make_loop_fold_for_loops los dtypes openmp triples s0 s :
  foldlM (make_loop_step lv openmp_elemwise_minsize dtypes openmp
            (make_preloops lv los dtypes)) s0 (reverse triples) = Some s →
  for_loops_list s
  = (hinted_header lv openmp_elemwise_minsize openmp <$> triples) ++ for_loops_list s0.
Proof.
  revert s. induction triples as [|[i [[pre_task task] indices]] triples IH]; intros s.
  - by intros [= <-].
  - rewrite reverse_cons, foldlM_snoc.
    destruct (foldlM _ s0 (reverse triples)) as [s'|]; [|done].
    cbn [mbind option_bind make_loop_step]. intros Hs.
    apply loop_over_for_loops in Hs.
    + rewrite Hs, for_loops_list_app, (IH s' eq_refl). cbn [for_loops_list for_loops].
      by rewrite app_nil_r.
    + apply Forall_app. split; [|by repeat constructor].
      rewrite make_preloops_lookup. apply inits_at_simple.
Qed.

Lemma make_loop_for_loops los dtypes tasks openmp prog :
  make_loop lv openmp_elemwise_minsize los dtypes tasks openmp = Some prog →
  for_loops prog = hinted_header lv openmp_elemwise_minsize openmp <$> level_triples los tasks.
Proof.
  unfold make_loop. destruct (foldlM _ _ _) as [s|] eqn:Hfold; [|done].
  intros [= <-]. rewrite for_loops_Block, for_loops_list_app.
  rewrite (make_loop_fold_for_loops _ _ _ _ _ _ Hfold). cbn. by rewrite !app_nil_r.
Qed.

Lemma loop_over_careduce_for_loops preloop code indices i :
  Forall (λ s, is_simple s = true) preloop →
  for_loops_list (loop_over_careduce lv preloop code indices i)
  = (i, suitable_length lv indices, None) :: for_loops_list code.
Proof.
  intros Hpre. unfold loop_over_careduce.
  destruct (loop_over_careduce_fold i 0 indices [] (Const 1)) as [Hupd Hsn];
    [constructor|].
  fold (enumerate indices) in Hupd, Hsn.
  destruct (foldl _ _ (enumerate indices)) as [update sn]. cbn [fst snd] in *.
  rewrite for_loops_list_app, (for_loops_list_simple preloop) by done.
  cbn [app for_loops_list]. rewrite for_loops_ForDown, for_loops_list_app.
  rewrite (for_loops_list_simple update) by done.
  rewrite !app_nil_r. f_equal. unfold suitable_length. by rewrite Hsn.
Qed.

Lemma make_loop_careduce_fold_for_loops los dtypes triples s0 :
  for_loops_list
    (foldl (make_loop_careduce_step lv (make_preloops lv los dtypes)) s0
           (reverse triples))
  = ((λ t, (t.1, suitable_length lv t.2.2, None)) <$> triples)
    ++ for_loops_list s0.
Proof.
  induction triples as [|[i [[pre_task task] indices]] triples IH]; [done|].
  rewrite reverse_cons, foldl_app. cbn [foldl make_loop_careduce_step].
  rewrite loop_over_careduce_for_loops.
  - rewrite for_loops_list_app, IH. cbn [for_loops_list for_loops].
    by rewrite app_nil_r.
  - apply Forall_app. split; [|by repeat constructor].
    rewrite make_preloops_lookup. apply inits_at_simple.
Qed.

Lemma make_loop_careduce_for_loops los dtypes tasks :
  for_loops (make_loop_careduce lv los dtypes tasks)
  = (λ t, (t.1, suitable_length lv t.2.2, None)) <$> level_triples los tasks.
Proof.
  unfold make_loop_careduce. rewrite for_loops_Block, for_loops_list_app.
  cbn [for_loops_list for_loops]. rewrite !app_nil_r.
  destruct (level_tasks tasks) as [|t ts] eqn:Htasks.
  - unfold level_triples. rewrite Htasks. cbn.
    rewrite make_preloops_lookup. apply for_loops_list_simple, inits_at_simple.
  - by rewrite make_loop_careduce_fold_for_loops, app_nil_r.
Qed.

Lemma level_triples_lookup los tasks i :
  level_triples los tasks !! i
  = t ← level_tasks tasks !! i; indices ← zip_star los !! i; Some (i, (t, indices)).
Proof.
  unfold level_triples. rewrite !lookup_zip_with.
  destruct (level_tasks tasks !! i) as [t|] eqn:Ht.
  - rewrite lookup_seq_lt by (by eapply lookup_lt_Some). cbn.
    by destruct (zip_star los !! i).
  - rewrite lookup_seq_ge by (by apply lookup_ge_None). done.
Qed.


(** *** The reordered loop nest *)

Lemma reversed_range_S n : reversed_range (S n) = n :: reversed_range n.
Proof. unfold reversed_range. by rewrite seq_S, reverse_app. Qed.

Lemma pointer_update_simple nnested dtypes :
  Forall (λ s, is_simple s = true) (pointer_update lv nnested dtypes).
Proof.
  unfold pointer_update. apply Forall_fmap, Forall_forall. by intros [j dtype] _.
Qed.

(** The header of level [i] of the reordered nest. *)
Lemma reordered_loop_fold nnested dtypes openmp n loop :
  for_loops_list
    (foldl (reordered_loop_step lv openmp_elemwise_minsize nnested dtypes openmp)
           loop (reversed_range n))
  = ((λ i, (i, Var (TOTAL_ i),
            if decide (i = 0) then
              if openmp then Some (Var (TOTAL_ i), openmp_elemwise_minsize)
              else None
            else None)) <$> seq 0 n)
    ++ for_loops_list loop.
Proof.
  revert loop. induction n as [|n IH]; intros loop; [done|].
  rewrite reversed_range_S. cbn [foldl]. rewrite IH.
  rewrite seq_S, fmap_app, <- (assoc_L (++)). f_equal.
  unfold reordered_loop_step. cbn [for_loops_list]. rewrite for_loops_For.
  rewrite for_loops_list_app, app_nil_r.
  rewrite (for_loops_list_simple (if decide (n = nnested - 1) then _ else _)).
  - done.
  - case_decide; [apply pointer_update_simple|constructor].
Qed.

Lemma fill_loops_simple ovar olo :
  Forall (λ s, is_simple s = true) (fill_loops ovar olo).
Proof.
  unfold fill_loops. apply Forall_forall. intros s Hs.
  apply list_elem_of_join in Hs as (l & Hs & Hl).
  apply list_elem_of_fmap in Hl as ([i ix] & -> & _).
  repeat (apply elem_of_cons in Hs as [->|Hs]; [done|]).
  by apply elem_of_nil in Hs.
Qed.

Lemma compute_output_dims_lengths_simple array_name los :
  Forall (λ s, is_simple s = true) (compute_output_dims_lengths lv array_name los).
Proof.
  unfold compute_output_dims_lengths. apply Forall_fmap, Forall_forall.
  by intros [i candidates] _.
Qed.

Lemma declare_totals_simple ovar nnested los :
  Forall (λ s, is_simple s = true) (declare_totals lv ovar nnested los).
Proof.
  unfold declare_totals. repeat (apply Forall_app; split).
  - by repeat constructor.
  - apply compute_output_dims_lengths_simple.
  - by repeat constructor.
  - apply Forall_forall. intros s Hs.
    apply list_elem_of_join in Hs as (l & Hs & Hl).
    apply list_elem_of_fmap in Hl as (i & -> & _).
    repeat (apply elem_of_cons in Hs as [->|Hs]; [done|]).
    by apply elem_of_nil in Hs.
Qed.

Lemma declare_strides_simple ovar nvars nnested los :
  Forall (λ s, is_simple s = true) (declare_strides lv ovar nvars nnested los).
Proof.
  unfold declare_strides. apply Forall_app. split; [by repeat constructor|].
  apply Forall_forall. intros s Hs.
  apply list_elem_of_join in Hs as (l & Hs & Hl).
  apply list_elem_of_fmap in Hl as (i & -> & _).
  apply elem_of_cons in Hs as [->|Hs]; [done|].
  apply list_elem_of_join in Hs as (l & Hs & Hl).
  apply list_elem_of_fmap in Hl as (j & -> & _).
  repeat (apply elem_of_cons in Hs as [->|Hs]; [done|]).
  by apply elem_of_nil in Hs.
Qed.

Lemma declare_iter_simple dtypes :
  Forall (λ s, is_simple s = true) (declare_iter lv dtypes).
Proof.
  unfold declare_iter. apply Forall_fmap, Forall_forall. by intros [i dtype] _.
Qed.

Lemma make_reordered_loop_for_loops los olv_index dtypes inner_task openmp prog lo0 :
  make_reordered_loop lv openmp_elemwise_minsize los olv_index dtypes inner_task openmp
  = Some prog →
  los !! 0 = Some lo0 →
  for_loops prog
  = (λ i, (i, Var (TOTAL_ i),
           if decide (i = 0) then
             if openmp then Some (Var (TOTAL_ i), openmp_elemwise_minsize)
             else None
           else None)) <$> seq 0 (length lo0).
Proof.
  unfold make_reordered_loop. intros Hprog Hlo0. rewrite Hlo0 in Hprog.
  destruct (los !! olv_index) as [olo|]; [|done].
  apply (inj Some) in Hprog. subst prog.
  rewrite for_loops_Block, !for_loops_list_app.
  rewrite (for_loops_list_simple (order_loops _ _ _)).
  2:{ unfold order_loops. repeat (apply Forall_app; split);
        [by repeat constructor|apply fill_loops_simple|by repeat constructor]. }
  rewrite (for_loops_list_simple (declare_totals _ _ _ _))
    by apply declare_totals_simple.
  rewrite (for_loops_list_simple (declare_strides _ _ _ _ _))
    by apply declare_strides_simple.
  rewrite (for_loops_list_simple (declare_iter _ _)) by apply declare_iter_simple.
  cbn [app]. unfold reordered_loop. rewrite reordered_loop_fold. cbn.
  by rewrite app_nil_r.
Qed.


Lemma first_dim_pos_from k (lo : loop_order) :
  match first_dim_pos (enumerate_from k lo) with
  | Some j => k ≤ j ∧ ∃ d, lo !! (j - k) = Some (Dim d)
  | None => ∀ ix, ix ∈ lo → ix = X
  end.
Proof.
  revert k. induction lo as [|ix lo IH]; intros k.
  - intros ix Hin. by apply elem_of_nil in Hin.
  - cbn [enumerate_from first_dim_pos]. destruct ix as [|d].
    + specialize (IH (S k)). destruct (first_dim_pos _) as [j|].
      * destruct IH as [Hle [d Hd]]. split; [lia|]. exists d.
        by replace (j - k) with (S (j - S k)) by lia.
      * intros ix Hin. apply elem_of_cons in Hin as [->|Hin]; [done|]. by apply IH.
    + split; [done|]. exists d. by rewrite Nat.sub_diag.
Qed.

Lemma preloop_level_0 lo :
  preloop_level lo = 0
  ↔ (∃ d, head lo = Some (Dim d)) ∨ (∀ ix, ix ∈ lo → ix = X).
Proof.
  unfold preloop_level, enumerate. split.
  - intros Hlevel. pose proof (first_dim_pos_from 0 lo) as Hpos.
    destruct (first_dim_pos _) as [j|]; [|by right].
    cbn in Hlevel. subst j. destruct Hpos as [_ [d Hd]]. left. exists d.
    by destruct lo.
  - intros [[d Hd]|Hall].
    + destruct lo as [|ix lo]; [done|]. injection Hd as ->. done.
    + pose proof (first_dim_pos_from 0 lo) as Hpos.
      destruct (first_dim_pos _) as [j|]; [|done].
      destruct Hpos as [_ [d Hd]]. apply list_elem_of_lookup_2 in Hd.
      by apply Hall in Hd.
Qed.

Lemma inits_at_elem_of j operands s :
  s ∈ inits_at lv j operands
  ↔ ∃ i lo dtype, (i, (lo, dtype)) ∈ operands ∧ preloop_level lo = j
                  ∧ s = IterInit (lv i) dtype.
Proof.
  unfold inits_at. rewrite list_elem_of_join. split.
  - intros (l & Hs & Hl). apply list_elem_of_fmap in Hl as ([i [lo dtype]] & -> & Hin).
    case_decide; [|by apply elem_of_nil in Hs].
    apply list_elem_of_singleton in Hs as ->. eauto 10.
  - intros (i & lo & dtype & Hin & Hlevel & ->).
    exists [IterInit (lv i) dtype]. split; [left|].
    apply list_elem_of_fmap. exists (i, (lo, dtype)). split; [|done].
    by rewrite decide_True.
Qed.

Lemma elem_of_enumerate_zip {A B} (l : list A) (k : list B) i a b :
  (i, (a, b)) ∈ enumerate (zip l k) ↔ l !! i = Some a ∧ k !! i = Some b.
Proof.
  rewrite list_elem_of_lookup. split.
  - intros [p Hp]. rewrite enumerate_lookup, lookup_zip_with in Hp.
    destruct (l !! p) as [a'|] eqn:Ha; [|done].
    destruct (k !! p) as [b'|] eqn:Hb; [|done].
    cbn in Hp. by simplify_eq.
  - intros [Ha Hb]. exists i. by rewrite enumerate_lookup, lookup_zip_with, Ha, Hb.
Qed.

Lemma inits_at_cons j i lo dtype operands :
  inits_at lv j ((i, (lo, dtype)) :: operands)
  = (if decide (preloop_level lo = j) then [IterInit (lv i) dtype] else [])
    ++ inits_at lv j operands.
Proof. done. Qed.

Lemma inits_at_all_empty k (operands : list (loop_order * string)) :
  (∀ lo dtype, (lo, dtype) ∈ operands → lo = []) →
  inits_at lv 0 (enumerate_from k operands)
  = (λ '(i, (_, dtype)), IterInit (lv i) dtype) <$> enumerate_from k operands.
Proof.
  revert k. induction operands as [|[lo dtype] operands IH]; intros k Hempty; [done|].
  cbn [enumerate_from]. rewrite inits_at_cons.
  rewrite IH by (intros lo' dtype' Hin; apply (Hempty lo' dtype'); by right).
  rewrite (Hempty lo dtype) by left. done.
Qed.

(** C10: with a single task (the last fragment only) [make_loop_careduce]
    emits no loop: the result is the block made of the pointer
    initialisations of level 0 (those of the operands whose loop order
    starts with a dimension or names none) followed by the fragment.  When
    every loop order is empty these are the initialisations of all the
    operands. *)
Theorem careduce_single_task los dtypes last :
  make_loop_careduce lv los dtypes (LoopTasks [] last)
  = Block (inits_at lv 0 (enumerate (zip los dtypes)) ++ [Task last]) ∧
  for_loops (make_loop_careduce lv los dtypes (LoopTasks [] last)) = [] ∧
  (∀ s, s ∈ inits_at lv 0 (enumerate (zip los dtypes))
        ↔ ∃ i lo dtype,
            los !! i = Some lo ∧ dtypes !! i = Some dtype ∧
            ((∃ d, head lo = Some (Dim d)) ∨ (∀ ix, ix ∈ lo → ix = X)) ∧
            s = IterInit (lv i) dtype) ∧
  ((∀ lo, lo ∈ los → lo = []) →
   make_loop_careduce lv los dtypes (LoopTasks [] last)
   = Block (((λ '(i, (_, dtype)), IterInit (lv i) dtype)
             <$> enumerate (zip los dtypes)) ++ [Task last])).
Proof.
  assert (make_loop_careduce lv los dtypes (LoopTasks [] last)
          = Block (inits_at lv 0 (enumerate (zip los dtypes)) ++ [Task last]))
    as Hprog.
  { unfold make_loop_careduce. cbn [level_tasks last_task].
    by rewrite make_preloops_lookup. }
  split; [done|]. split; [|split].
  - by rewrite make_loop_careduce_for_loops.
  - intros s. rewrite inits_at_elem_of. split.
    + intros (i & lo & dtype & Hin & Hlevel & ->).
      apply elem_of_enumerate_zip in Hin as [Hlo Hdtype].
      apply preloop_level_0 in Hlevel. eauto 10.
    + intros (i & lo & dtype & Hlo & Hdtype & Hlevel & ->).
      exists i, lo, dtype. split; [by apply elem_of_enumerate_zip|].
      split; [by apply preloop_level_0|done].
  - intros Hempty. rewrite Hprog. unfold enumerate.
    rewrite inits_at_all_empty; [done|].
    intros lo dtype Hin. apply Hempty.
    apply list_elem_of_lookup in Hin as [p Hp]. rewrite lookup_zip_with in Hp.
    destruct (los !! p) as [lo'|] eqn:Hlo; [|done].
    destruct (dtypes !! p); [|done]. cbn in Hp. simplify_eq.
    by eapply list_elem_of_lookup_2.
Qed.

(** ** The order of the loops *)

#[local] Instance pair_le_flip_total : Total (flip pair_le).
Proof. intros [a b] [c d]. unfold flip, pair_le. cbn. lia. Qed.

#[local] Instance pair_le_flip_trans : Transitive (flip pair_le).
Proof. intros [a b] [c d] [e f]. unfold flip, pair_le. cbn. lia. Qed.

Lemma StronglySorted_lookup_lt {A} (R : relation A) l i k x y :
  StronglySorted R l → i < k → l !! i = Some x → l !! k = Some y → R x y.
Proof.
  intros Hsorted. revert i k. induction Hsorted as [|a l _ IH Hall]; intros i k Hlt Hi Hk.
  - by destruct i.
  - destruct k as [|k]; [lia|]. destruct i as [|i].
    + injection Hi as ->. cbn in Hk. rewrite Forall_forall in Hall.
      apply Hall. by eapply list_elem_of_lookup_2.
    + apply (IH i k); [lia|done..].
Qed.

Lemma stride_pairs_from_snd a k olo :
  (stride_pair a <$> enumerate_from k olo).*2 = Z.of_nat <$> seq k (length olo).
Proof.
  revert k. induction olo as [|ix olo IH]; intros k; [done|].
  cbn. by rewrite IH.
Qed.

Lemma stride_pairs_NoDup a olo : NoDup (stride_pairs a olo).*2.
Proof.
  unfold stride_pairs, enumerate. rewrite stride_pairs_from_snd.
  apply NoDup_fmap_2; [apply _|apply NoDup_seq].
Qed.

(** Sorting with reversed iterators leaves the vector in strictly
    decreasing order when no two pairs share their second component. *)
Lemma sort_rev_spec v :
  NoDup v.*2 →
  sort_rev v ≡ₚ v ∧
  ∀ i k p q, i < k → sort_rev v !! i = Some p → sort_rev v !! k = Some q →
             pair_gt p q.
Proof.
  intros Hnodup. unfold sort_rev. split; [apply merge_sort_Permutation|].
  intros i k p q Hlt Hp Hq.
  pose proof (StronglySorted_merge_sort (flip pair_le) v) as Hsorted.
  pose proof (StronglySorted_lookup_lt _ _ i k p q Hsorted Hlt Hp Hq) as Hle.
  assert (p.2 ≠ q.2) as Hne.
  { assert (NoDup (merge_sort (flip pair_le) v).*2) as Hnodup'.
    { by rewrite merge_sort_Permutation. }
    intros Heq.
    assert (i = k); [|lia].
    eapply (NoDup_lookup _ i k (p.2) Hnodup');
      rewrite list_lookup_fmap; [by rewrite Hp|by rewrite Hq, Heq]. }
  unfold flip, pair_le in Hle. unfold pair_gt. lia.
Qed.

(** Running the statements that fill the vector. *)
Lemma fill_loops_run ovar a olo :
  arrays ovar = Some a →
  (∀ d, Dim d ∈ olo → d < length (strides a)) →
  ∀ k prefix st,
    loops st = prefix ++ replicate (length olo) (0, 0)%Z →
    loops_it st = length prefix →
    run (mjoin ((λ '(i, ix),
                   [ItSetFirst ovar
                      match ix with
                      | Dim d => abs_PyArray_STRIDES ovar d
                      | X => Const 0
                      end;
                    ItSetSecond ovar i;
                    ItIncr ovar]) <$> enumerate_from k olo)) st
    = Done (set_it (length prefix + length olo)
              (set_loops (prefix ++ (stride_pair a <$> enumerate_from k olo)) st)).
Proof.
  intros Ha. induction olo as [|ix olo IH]; intros Hdims k prefix st Hloops Hit.
  - cbn. rewrite Nat.add_0_r, app_nil_r in *. destruct st; cbn in *. by subst.
  - cbn [enumerate_from fmap list_fmap mjoin list_join app].
    cbn [length replicate] in Hloops.
    assert (value st match ix with
                     | Dim d => abs_PyArray_STRIDES ovar d
                     | X => Const 0
                     end = Some (stride_pair a (k, ix)).1) as Hval.
    { destruct ix as [|d]; [done|]. cbn. rewrite Ha. cbn.
      destruct (lookup_lt_is_Some_2 (strides a) d) as [s Hs]; [apply Hdims; left|].
      by rewrite Hs. }
    cbn [exec_list exec]. rewrite Hval, Hit, Hloops.
    rewrite list_lookup_middle by done. cbn [mbind option_bind of_option bind_outcome].
    cbn [exec loops loops_it set_loops]. rewrite Hit.
    rewrite insert_app_r_alt, Nat.sub_diag by done. cbn [insert list_insert].
    rewrite list_lookup_middle by done. cbn [mbind option_bind of_option bind_outcome].
    cbn [exec loops loops_it set_loops set_it].
    rewrite insert_app_r_alt, Nat.sub_diag by done. cbn [insert list_insert fst snd].
    rewrite (IH (λ d Hd, Hdims d (list_elem_of_further _ _ _ Hd)) (S k)
                (prefix ++ [stride_pair a (k, ix)])).
    + cbn. rewrite length_app, <- !(assoc_L (++)). unfold set_it, set_loops. cbn.
      do 2 f_equal. lia.
    + cbn. by rewrite <- (assoc_L (++)).
    + cbn. rewrite length_app. cbn. lia.
Qed.


End Proofs.

(** ** The two loop nests on a 2 x 3 array *)

(** C8 fails on the code: for the loop order [(0, 1)] of the C-contiguous
    2 x 3 array [a], the nest of [make_loop_careduce] presents the six
    elements at offsets 0, 1, 2, 3, 4, 5 to the innermost task, while the
    nest of [make_loop], which never advances [a_iter] and binds [a_i] to
    [a_iter + ITER_1 * a_jump1_1] in the innermost loop, presents the
    offsets 0, 1, 2, 0, 1, 2. *)
Theorem canonical_nest_misses_outer_levels :
  let los := [[Dim 0; Dim 1]] in
  let dtypes := ["double"] in
  let tasks := LoopTasks [("", ""); ("", "body")] "" in
  let checks := make_checks example_lv los dtypes in
  ∃ canonical tr_canonical tr_careduce,
    make_loop example_lv 0 los dtypes tasks false = Some canonical ∧
    trace_of example_arrays example_sizeof (checks ++ [canonical])
    = Some tr_canonical ∧
    trace_of example_arrays example_sizeof
             (checks ++ [make_loop_careduce example_lv los dtypes tasks])
    = Some tr_careduce ∧
    visits_ref "body" "a" tr_canonical
    = [Some 0; Some 1; Some 2; Some 0; Some 1; Some 2]%Z ∧
    visits_iter "body" "a" tr_canonical
    = [Some 0; Some 0; Some 0; Some 0; Some 0; Some 0]%Z ∧
    visits_iter "body" "a" tr_careduce
    = [Some 0; Some 1; Some 2; Some 3; Some 4; Some 5]%Z.
Proof.
  cbv zeta. eexists _, _, _. split; [reflexivity|].
  split; [vm_compute; reflexivity|]. split; [vm_compute; reflexivity|].
  split; [|split]; vm_compute; reflexivity.
Qed.

(** ** The theorems at concrete inputs *)

Ltac solve_dims :=
  let H := fresh in
  intros ? H;
  repeat (apply elem_of_cons in H as [H|H]; [injection H as ->; lia|]);
  by apply elem_of_nil in H.






Lemma length_error_kinds_witness :
  ∃ i j0 x0 j x,
    [[Dim 0]; [Dim 0]] !! j0 ≫= (.!! i) = Some (Dim x0) ∧
    [[Dim 0]; [Dim 0]] !! j ≫= (.!! i) = Some (Dim x) ∧
    ∀ st a b,
      env st !! n_ (example_lv j0) x0 = Some a →
      env st !! n_ (example_lv j) x = Some b →
      a ≠ b →
      ∃ fmt,
        exec example_arrays example_sizeof (dim_check example_lv 0 0 1 0) st
        = Failed (Some (fmt, [Z.of_nat j0; Z.of_nat x0; a;
                              Z.of_nat j; Z.of_nat x; b])) ∧
        (fmt = runtime_broadcast_error_msg ↔ (a = 1 ∨ b = 1)%Z) ∧
        (fmt = dimension_mismatch_msg ↔ (a ≠ 1 ∧ b ≠ 1)%Z).
Proof.
  apply (length_error_kinds example_lv example_arrays example_sizeof
           [[Dim 0]; [Dim 0]] (dim_check example_lv 0 0 1 0)).
  exact (list_elem_of_here _ _).
Defined.

Lemma checks_compare_with_first_witness :
  checks_of_matches example_lv [X; Dim 0; Dim 1; Dim 0]
  = [dim_check example_lv 1 0 2 1; dim_check example_lv 1 0 3 0] ∧
  ∀ c, c ∈ checks_of_matches example_lv [X; Dim 0; Dim 1; Dim 0] →
       c ∈ make_checks_check example_lv [[X]; [Dim 0]; [Dim 1]; [Dim 0]].
Proof.
  split; [reflexivity|].
  apply (checks_compare_with_first example_lv example_arrays example_sizeof
           [[X]; [Dim 0]; [Dim 1]; [Dim 0]] 0 [X; Dim 0; Dim 1; Dim 0] eq_refl).
Defined.

Lemma output_dims_lengths_witness :
  ∃ e,
    compute_output_dims_lengths example_lv "dims" [[X; Dim 0]; [Dim 1; Dim 0]] !! 0
    = Some (Assign (elt_ "dims" 0) e) ∧
    (∀ j d, [X; Dim 1] !! j = Some (Dim d) →
            (∀ j', j' < j → [X; Dim 1] !! j' = Some X) →
            e = Var (n_ (example_lv j) d)) ∧
    ((∀ ix, ix ∈ [X; Dim 1] → ix = X) → e = Const 1).
Proof.
  apply (output_dims_lengths example_lv "dims" [[X; Dim 0]; [Dim 1; Dim 0]]
           0 [X; Dim 1] eq_refl).
Defined.


(** * Further properties of the emitted code *)

(** ** The checks, run as a whole *)

Section Checks.
Variable lv : nat → string.
Variable arrays : string → option pyarray.
Variable sizeof : string → Z.

Abbreviation run := (exec_list arrays sizeof).
Abbreviation value := (eval arrays sizeof).

Definition assigns_to (var : string) (l : list stmt) : Prop :=
  Forall (λ s, ∃ x e, s = Assign x e ∧ var_of x = Some var) l.

Lemma jump_fold_assigns var dtype l init adjust :
  assigns_to var init →
  assigns_to var (foldl (jump_step var dtype) (init, adjust) l).1.
Proof.
  revert init adjust. induction l as [|[j ix] l IH]; intros init adjust Hinit; [done|].
  cbn [foldl jump_step]. destruct ix as [|d]; apply IH;
    (apply Forall_app; split; [done|]); repeat constructor; eauto.
Qed.

(** Assignments to the variables of one operand leave all the rest of the
    state as it is. *)
Lemma assigns_frame var l st st' :
  assigns_to var l → run l st = Done st' →
  (∀ x, var_of x ≠ Some var → env st' !! x = env st !! x) ∧
  iters st' = iters st ∧ refs st' = refs st ∧ trace st' = trace st ∧
  err st' = err st.
Proof.
  intros Hl. revert st. induction Hl as [|s l (x & e & -> & Hx) _ IH]; intros st.
  - by intros [= <-].
  - cbn [exec_list exec]. destruct (value st e) as [v|]; [|done].
    cbn [mbind option_bind of_option bind_outcome]. intros Hrun.
    destruct (IH _ Hrun) as (Henv & -> & -> & -> & ->). split; [|done].
    intros y Hy. rewrite (Henv y Hy). cbn.
    rewrite lookup_insert_ne; [done|]. by intros <-.
Qed.

Lemma operand_ready_frame var dtype a lo st st' :
  (∀ x, var_of x = Some var → env st' !! x = env st !! x) →
  operand_ready sizeof var dtype a lo st → operand_ready sizeof var dtype a lo st'.
Proof.
  intros Hframe [Hdims Hjumps]. split.
  - intros d Hd. destruct (Hdims d Hd) as (? & ? & ?).
    by rewrite !Hframe.
  - intros i ix Hi. rewrite Hframe by done. by apply Hjumps.
Qed.

(** A rank check that lets the run go on found enough dimensions. *)
Lemma rank_check_done var (lo : loop_order) a st st' :
  arrays var = Some a →
  run (rank_check var lo) st = Done st' →
  st' = st ∧ ∀ d, Dim d ∈ lo → d < length (shape a).
Proof.
  intros Ha Hrun. destruct (nonx lo) as [|d0 l] eqn:Hnonx.
  - unfold rank_check in Hrun. rewrite Hnonx in Hrun. injection Hrun as <-.
    split; [done|]. intros d Hd. apply elem_of_nonx in Hd. rewrite Hnonx in Hd.
    by apply elem_of_nil in Hd.
  - assert (Dim (py_max (nonx lo)) ∈ lo) as Hm.
    { apply elem_of_nonx, py_max_elem_of. by rewrite Hnonx. }
    assert (∀ d, Dim d ∈ lo → d ≤ py_max (nonx lo)) as Hmax.
    { intros d Hd. by apply py_max_ge, elem_of_nonx. }
    rewrite (rank_check_run arrays sizeof var lo a _ st Ha Hm Hmax) in Hrun.
    case_decide as Hrank; [done|]. injection Hrun as <-. split; [done|].
    intros d Hd. specialize (Hmax d Hd). lia.
Qed.

(** The initialisation of one operand, when it runs to its end. *)
Lemma init_operand_done j (lo : loop_order) dtype a st st' :
  arrays (lv j) = Some a →
  length (strides a) = length (shape a) →
  run (init_operand lv j lo dtype) st = Done st' →
  operand_ready sizeof (lv j) dtype a lo st' ∧
  (∀ x, var_of x ≠ Some (lv j) → env st' !! x = env st !! x) ∧
  iters st' = iters st ∧ refs st' = refs st ∧ trace st' = trace st ∧
  err st' = err st.
Proof.
  intros Ha Hlen. unfold init_operand. rewrite exec_list_app.
  destruct (run (rank_check (lv j) lo) st) as [st0| |] eqn:Hrank; [|done..].
  apply (rank_check_done _ _ a) in Hrank as [-> Hrank]; [|done].
  cbn [bind_outcome]. intros Hrun.
  destruct (jump_init_run arrays sizeof (lv j) dtype a lo Ha) with (k := 0) (st := st)
    as (st'' & Hrun' & Hjumps & Hvars & _).
  { intros d Hd. specialize (Hrank d Hd). split; apply lookup_lt_is_Some; lia. }
  unfold jump_init, enumerate in Hrun. rewrite Hrun' in Hrun. injection Hrun as ->.
  split; [|eapply assigns_frame; [|exact Hrun']; apply jump_fold_assigns; constructor].
  split.
  - intros d Hd. destruct (Hvars d Hd) as [Hn Hs]. specialize (Hrank d Hd).
    split; [done|]. split; [|done].
    destruct (lookup_lt_is_Some_2 (shape a) d Hrank) as [n Hnd].
    rewrite Hn, Hnd. done.
  - intros i ix Hi. by apply (Hjumps i ix).
Qed.


Lemma imap_enumerate_from {A B} (g : nat → A → B) k (l : list A) :
  imap (λ i, g (k + i)) l = (λ p, g p.1 p.2) <$> enumerate_from k l.
Proof.
  revert k. induction l as [|a l IH]; intros k; [done|].
  cbn [imap enumerate_from fmap list_fmap]. rewrite Nat.add_0_r. f_equal.
  rewrite <- IH. apply imap_ext. intros i x _. cbn. f_equal. lia.
Qed.

Lemma make_checks_init_enumerate los dtypes :
  make_checks_init lv los dtypes
  = mjoin ((λ p, init_operand lv p.1 p.2.1 p.2.2) <$> enumerate (zip los dtypes)).
Proof.
  unfold make_checks_init, enumerate. f_equal.
  rewrite <- (imap_enumerate_from (λ i p, init_operand lv i p.1 p.2) 0).
  apply imap_ext. by intros i [lo dtype] _.
Qed.

(** The initialisations of all the operands, when they run to their end. *)
Lemma init_all_done (operands : list (loop_order * string)) : ∀ k st st',
  (∀ p q, p < k + length operands → q < k + length operands →
          lv p = lv q → p = q) →
  (∀ p lo dtype, operands !! p = Some (lo, dtype) →
     ∃ a, arrays (lv (k + p)) = Some a ∧ length (strides a) = length (shape a)) →
  run (mjoin ((λ p, init_operand lv p.1 p.2.1 p.2.2)
              <$> enumerate_from k operands)) st = Done st' →
  (∀ p lo dtype a, operands !! p = Some (lo, dtype) →
     arrays (lv (k + p)) = Some a →
     operand_ready sizeof (lv (k + p)) dtype a lo st') ∧
  (∀ x, (∀ p, p < length operands → var_of x ≠ Some (lv (k + p))) →
        env st' !! x = env st !! x) ∧
  iters st' = iters st ∧ refs st' = refs st ∧ trace st' = trace st ∧
  err st' = err st.
Proof.
  induction operands as [|[lo dtype] operands IH]; intros k st st' Hinj Harr.
  - intros [= <-]. split; [|done]. intros p lo dtype a Hp. by destruct p.
  - cbn [enumerate_from fmap list_fmap mjoin list_join fst snd].
    rewrite exec_list_app.
    destruct (run (init_operand lv k lo dtype) st) as [st1| |] eqn:Hrun1; [|done..].
    cbn [bind_outcome]. intros Hrun.
    destruct (Harr 0 lo dtype eq_refl) as (a & Ha & Hlen). rewrite Nat.add_0_r in Ha.
    destruct (init_operand_done k lo dtype a st st1 Ha Hlen Hrun1)
      as (Hready1 & Hframe1 & Hi1 & Hr1 & Ht1 & He1).
    destruct (IH (S k) st1 st') as (Hready & Hframe & Hi & Hr & Ht & He).
    + intros p q Hp Hq. apply Hinj; cbn [length]; lia.
    + intros p lo' dtype' Hp. replace (S k + p) with (k + S p) by lia.
      by apply (Harr (S p) lo' dtype').
    + done.
    + split; [|split; [|by rewrite Hi, Hr, Ht, He]].
      * intros [|p] lo' dtype' a' Hp Ha'.
        -- cbn in Hp. rewrite Nat.add_0_r in *. simplify_eq.
           apply (operand_ready_frame _ _ _ _ st1); [|done].
           intros x Hx. apply Hframe. intros p Hp Heq.
           assert (S k + p = k); [|lia].
           apply Hinj; cbn [length]; [lia|lia|congruence].
        -- replace (k + S p) with (S k + p) in * by lia. by apply (Hready p lo').
      * intros x Hx. rewrite Hframe, Hframe1; [done| |].
        -- specialize (Hx 0). rewrite Nat.add_0_r in Hx. apply Hx. cbn. lia.
        -- intros p Hp. replace (S k + p) with (k + S p) by lia.
           apply Hx. cbn. lia.
Qed.

(** The length checks, when they all let the run go on. *)
Lemma dim_checks_done l st st' :
  Forall (λ c, ∃ j0 x0 j x, c = dim_check lv j0 x0 j x) l →
  run l st = Done st' →
  st' = st ∧ Forall (λ c, exec arrays sizeof c st = Done st) l.
Proof.
  induction 1 as [|c l (j0 & x0 & j & x & ->) _ IH]; [by intros [= <-]|].
  cbn [exec_list]. pose proof (dim_check_run lv arrays sizeof j0 x0 j x st) as Hc.
  destruct (exec arrays sizeof (dim_check lv j0 x0 j x) st) as [st1| |] eqn:Hexec;
    [|done..].
  assert (st1 = st) as ->.
  { destruct (env st !! n_ (lv j0) x0); [|done].
    destruct (env st !! n_ (lv j) x); [|done].
    case_decide; congruence. }
  cbn [bind_outcome]. intros Hrun. destruct (IH Hrun) as [-> Hall].
  split; [done|]. by constructor.
Qed.

Lemma make_checks_check_shape los :
  Forall (λ c, ∃ j0 x0 j x, c = dim_check lv j0 x0 j x) (make_checks_check lv los).
Proof.
  apply Forall_forall. intros c Hc.
  apply make_checks_check_elem_of in Hc as (i & matches & _ & Hc).
  apply (checks_of_matches_inv lv arrays sizeof) in Hc
    as (j0 & x0 & j & x & _ & _ & _ & _ & ->). eauto.
Qed.

(** When the checks of a column pass, all its length variables are equal. *)
Lemma column_lengths_equal los i (col : list index) st j1 d1 j2 d2 :
  zip_star los !! i = Some col →
  Forall (λ c, exec arrays sizeof c st = Done st) (make_checks_check lv los) →
  col !! j1 = Some (Dim d1) → col !! j2 = Some (Dim d2) →
  is_Some (env st !! n_ (lv j1) d1) →
  env st !! n_ (lv j1) d1 = env st !! n_ (lv j2) d2.
Proof.
  intros Hcol Hall H1 H2 Hsome.
  assert (∃ j0 x0, col !! j0 = Some (Dim x0) ∧
                   ∀ j d, col !! j = Some (Dim d) →
                          (j, d) ≠ (j0, x0) →
                          is_Some (env st !! n_ (lv j0) x0) ∧
                          env st !! n_ (lv j0) x0 = env st !! n_ (lv j) d)
    as (j0 & x0 & H0 & Hfirst).
  { destruct (to_compare col) as [|[j0 x0] rest] eqn:Htc.
    { pose proof (proj2 (to_compare_elem_of lv arrays sizeof col j1 d1) H1) as Hin.
      rewrite Htc in Hin. by apply elem_of_nil in Hin. }
    pose proof (to_compare_head col j0 x0 rest Htc) as (H0 & Hbefore & Hrest).
    exists j0, x0. split; [done|]. intros j d Hj Hne.
    assert (j0 < j) as Hlt.
    { destruct (Nat.lt_trichotomy j0 j) as [|[->|Hlt]]; [done| |].
      - rewrite H0 in Hj. by simplify_eq.
      - specialize (Hbefore j Hlt). congruence. }
    assert (dim_check lv j0 x0 j d ∈ make_checks_check lv los) as Hc.
    { apply make_checks_check_elem_of. exists i, col. split; [done|].
      apply (checks_of_matches_elem_of lv arrays sizeof col j0 x0); eauto. }
    rewrite Forall_forall in Hall. specialize (Hall _ Hc).
    rewrite dim_check_run in Hall.
    destruct (env st !! n_ (lv j0) x0) as [a|]; [|done].
    destruct (env st !! n_ (lv j) d) as [b|]; [|done].
    case_decide; [|done]. split; [by eexists|congruence]. }
  destruct (decide ((j1, d1) = (j0, x0))) as [[= -> ->]|Hne1];
    destruct (decide ((j2, d2) = (j0, x0))) as [[= -> ->]|Hne2].
  - done.
  - by apply Hfirst.
  - symmetry. by apply Hfirst.
  - destruct (Hfirst j1 d1 H1 Hne1) as [_ <-]. by apply Hfirst.
Qed.

End Checks.

Section Validation.
Variable lv : nat → string.
Variable arrays : string → option pyarray.
Variable sizeof : string → Z.
Variable los : list (list index).
Variable dtypes : list string.

Abbreviation run := (exec_list arrays sizeof).
Abbreviation value := (eval arrays sizeof).

Hypothesis lv_inj : ∀ p q, p < length los → q < length los → lv p = lv q → p = q.
Hypothesis dtypes_length : length dtypes = length los.
Hypothesis arrays_ok :
  ∀ j, j < length los →
       ∃ a, arrays (lv j) = Some a ∧ length (strides a) = length (shape a).

Lemma column_entry i (col : list index) j ix :
  zip_star los !! i = Some col → col !! j = Some ix →
  j < length los ∧ ∃ lo, los !! j = Some lo ∧ lo !! i = Some ix.
Proof.
  intros Hcol Hj. apply zip_star_lookup in Hcol as [Hlen Hcol].
  split; [rewrite <- Hlen; by eapply lookup_lt_Some|].
  rewrite Hcol in Hj. destruct (los !! j) as [lo|]; [|done]. by exists lo.
Qed.

(** What a complete run of the code of [make_checks] establishes. *)
Lemma checks_run_to_end st st' :
  run (make_checks lv los dtypes) st = Done st' →
  (∀ j lo dtype a,
     los !! j = Some lo → dtypes !! j = Some dtype → arrays (lv j) = Some a →
     operand_ready sizeof (lv j) dtype a lo st') ∧
  (∀ i col j1 d1 j2 d2 a1 a2,
     zip_star los !! i = Some col →
     col !! j1 = Some (Dim d1) → col !! j2 = Some (Dim d2) →
     arrays (lv j1) = Some a1 → arrays (lv j2) = Some a2 →
     shape a1 !! d1 = shape a2 !! d2) ∧
  iters st' = iters st ∧ refs st' = refs st ∧ trace st' = trace st ∧
  err st' = err st.
Proof.
  unfold make_checks. rewrite exec_list_app, make_checks_init_enumerate.
  destruct (run (mjoin _) st) as [st1| |] eqn:Hinit; [|done..].
  cbn [bind_outcome]. intros Hchecks.
  apply (dim_checks_done lv) in Hchecks as [-> Hall];
    [|apply (make_checks_check_shape lv arrays sizeof)].
  destruct (init_all_done lv arrays sizeof (zip los dtypes) 0 st st1)
    as (Hready & _ & Hrest); [| |done|].
  { intros p q. rewrite length_zip_with. cbn. intros Hp Hq. apply lv_inj; lia. }
  { intros p lo dtype Hp. apply lookup_zip_with_Some in Hp as (? & ? & ? & Hlo & _).
    apply arrays_ok. by eapply lookup_lt_Some. }
  assert (∀ j lo dtype a,
            los !! j = Some lo → dtypes !! j = Some dtype → arrays (lv j) = Some a →
            operand_ready sizeof (lv j) dtype a lo st1) as Hready'.
  { intros j lo dtype a Hlo Hdtype Ha. apply (Hready j lo dtype a); [|done].
    apply lookup_zip_with_Some. by exists lo, dtype. }
  split; [done|]. split; [|done].
  intros i col j1 d1 j2 d2 a1 a2 Hcol H1 H2 Ha1 Ha2.
  destruct (column_entry i col j1 (Dim d1) Hcol H1) as (Hj1 & lo1 & Hlo1 & Hix1).
  destruct (column_entry i col j2 (Dim d2) Hcol H2) as (Hj2 & lo2 & Hlo2 & Hix2).
  destruct (lookup_lt_is_Some_2 dtypes j1) as [dt1 Hdt1]; [lia|].
  destruct (lookup_lt_is_Some_2 dtypes j2) as [dt2 Hdt2]; [lia|].
  destruct (Hready' j1 lo1 dt1 a1 Hlo1 Hdt1 Ha1) as [Hdims1 _].
  destruct (Hready' j2 lo2 dt2 a2 Hlo2 Hdt2 Ha2) as [Hdims2 _].
  destruct (Hdims1 d1) as (Hr1 & Hn1 & _); [by eapply list_elem_of_lookup_2|].
  destruct (Hdims2 d2) as (Hr2 & Hn2 & _); [by eapply list_elem_of_lookup_2|].
  rewrite <- Hn1, <- Hn2.
  apply (column_lengths_equal lv arrays sizeof los i col); try done.
  rewrite Hn1. by apply lookup_lt_is_Some_2.
Qed.



(** The initialisation of one operand either runs to its end or stops at
    its rank check. *)
Lemma init_operand_outcome j (lo : list index) dtype a st :
  arrays (lv j) = Some a →
  length (strides a) = length (shape a) →
  ((∀ d, Dim d ∈ lo → d < length (shape a)) →
   ∃ st', run (init_operand lv j lo dtype) st = Done st') ∧
  (¬ (∀ d, Dim d ∈ lo → d < length (shape a)) →
   run (init_operand lv j lo dtype) st
   = Failed (Some (not_enough_dimensions_msg, []))).
Proof.
  intros Ha Hlen. unfold init_operand. rewrite exec_list_app. split.
  - intros Hrank. rewrite (rank_check_run_ok arrays sizeof _ lo a) by done.
    cbn [bind_outcome].
    destruct (jump_init_run arrays sizeof (lv j) dtype a lo Ha) with (k := 0) (st := st)
      as (st' & Hrun & _).
    { intros d Hd. specialize (Hrank d Hd). split; apply lookup_lt_is_Some; lia. }
    by exists st'.
  - intros Hrank. destruct (nonx lo) as [|d0 l] eqn:Hnonx.
    { destruct Hrank. intros d Hd. apply elem_of_nonx in Hd. rewrite Hnonx in Hd.
      by apply elem_of_nil in Hd. }
    assert (Dim (py_max (nonx lo)) ∈ lo) as Hm.
    { apply elem_of_nonx, py_max_elem_of. by rewrite Hnonx. }
    assert (∀ d, Dim d ∈ lo → d ≤ py_max (nonx lo)) as Hmax.
    { intros d Hd. by apply py_max_ge, elem_of_nonx. }
    rewrite (rank_check_run arrays sizeof _ lo a _ st Ha Hm Hmax).
    case_decide as Hlt; [done|]. destruct Hrank. intros d Hd.
    specialize (Hmax d Hd). lia.
Qed.

Lemma ranks_dec (lo : list index) (a : pyarray) :
  Decision (∀ d, Dim d ∈ lo → d < length (shape a)).
Proof.
  destruct (decide (Forall (λ d, d < length (shape a)) (nonx lo))) as [Hall|Hnot].
  - left. intros d Hd. rewrite Forall_forall in Hall. by apply Hall, elem_of_nonx.
  - right. intros Hrank. apply Hnot, Forall_forall. intros d Hd.
    by apply Hrank, elem_of_nonx.
Qed.

Lemma init_all_outcome (operands : list (loop_order * string)) : ∀ k st,
  (∀ p lo dtype, operands !! p = Some (lo, dtype) →
     ∃ a, arrays (lv (k + p)) = Some a ∧ length (strides a) = length (shape a)) →
  ((∀ p lo dtype a, operands !! p = Some (lo, dtype) →
      arrays (lv (k + p)) = Some a → ∀ d, Dim d ∈ lo → d < length (shape a)) →
   ∃ st', run (mjoin ((λ p, init_operand lv p.1 p.2.1 p.2.2)
                      <$> enumerate_from k operands)) st = Done st') ∧
  ((∃ st', run (mjoin ((λ p, init_operand lv p.1 p.2.1 p.2.2)
                       <$> enumerate_from k operands)) st = Done st') ∨
   run (mjoin ((λ p, init_operand lv p.1 p.2.1 p.2.2)
               <$> enumerate_from k operands)) st
   = Failed (Some (not_enough_dimensions_msg, []))).
Proof.
  induction operands as [|[lo dtype] operands IH]; intros k st Harr.
  - split; [by exists st|left; by exists st].
  - cbn [enumerate_from fmap list_fmap mjoin list_join fst snd].
    rewrite exec_list_app.
    destruct (Harr 0 lo dtype eq_refl) as (a & Ha & Hlen). rewrite Nat.add_0_r in Ha.
    destruct (init_operand_outcome k lo dtype a st Ha Hlen) as [Hok Hbad].
    assert (∀ p lo' dtype', operands !! p = Some (lo', dtype') →
              ∃ a, arrays (lv (S k + p)) = Some a
                   ∧ length (strides a) = length (shape a)) as Harr'.
    { intros p lo' dtype' Hp. replace (S k + p) with (k + S p) by lia.
      by apply (Harr (S p) lo' dtype'). }
    split.
    + intros Hranks. destruct Hok as [st1 ->].
      { apply (Hranks 0 lo dtype a); [done|by rewrite Nat.add_0_r]. }
      cbn [bind_outcome]. apply (IH (S k) st1 Harr').
      intros p lo' dtype' a' Hp Ha'. apply (Hranks (S p) lo' dtype' a'); [done|].
      by replace (k + S p) with (S k + p) by lia.
    + destruct (ranks_dec lo a) as [Hrank|Hrank].
      * destruct (Hok Hrank) as [st1 ->]. cbn [bind_outcome].
        apply (IH (S k) st1 Harr').
      * right. by rewrite (Hbad Hrank).
Qed.

Lemma dim_checks_pass l st :
  Forall (λ c, exec arrays sizeof c st = Done st) l → run l st = Done st.
Proof.
  induction 1 as [|c l Hc _ IH]; [done|]. cbn [exec_list]. by rewrite Hc.
Qed.

Lemma dim_checks_outcome l st :
  Forall (λ c, ∃ j0 x0 j x, c = dim_check lv j0 x0 j x ∧
                is_Some (env st !! n_ (lv j0) x0) ∧
                is_Some (env st !! n_ (lv j) x)) l →
  run l st = Done st ∨
  ∃ fmt args, run l st = Failed (Some (fmt, args)) ∧
              (fmt = runtime_broadcast_error_msg ∨ fmt = dimension_mismatch_msg).
Proof.
  induction 1 as [|c l (j0 & x0 & j & x & -> & [a Ha] & [b Hb]) _ IH]; [by left|].
  cbn [exec_list]. rewrite dim_check_run, Ha, Hb.
  destruct (decide (a = b)) as [_|_]; [done|]. right. cbn [bind_outcome].
  eexists _, _. split; [done|]. case_decide; auto.
Qed.

(** After the initialisations every length variable that a check reads is
    set. *)
Lemma checks_defined st st1 :
  run (make_checks_init lv los dtypes) st = Done st1 →
  (∀ j lo dtype a,
     los !! j = Some lo → dtypes !! j = Some dtype → arrays (lv j) = Some a →
     operand_ready sizeof (lv j) dtype a lo st1) ∧
  Forall (λ c, ∃ j0 x0 j x, c = dim_check lv j0 x0 j x ∧
                is_Some (env st1 !! n_ (lv j0) x0) ∧
                is_Some (env st1 !! n_ (lv j) x))
         (make_checks_check lv los).
Proof.
  rewrite make_checks_init_enumerate. intros Hinit.
  destruct (init_all_done lv arrays sizeof (zip los dtypes) 0 st st1)
    as (Hready & _); [| |done|].
  { intros p q. rewrite length_zip_with. cbn. intros Hp Hq. apply lv_inj; lia. }
  { intros p lo dtype Hp. apply lookup_zip_with_Some in Hp as (? & ? & ? & Hlo & _).
    apply arrays_ok. by eapply lookup_lt_Some. }
  assert (∀ j lo dtype a,
            los !! j = Some lo → dtypes !! j = Some dtype → arrays (lv j) = Some a →
            operand_ready sizeof (lv j) dtype a lo st1) as Hready'.
  { intros j lo dtype a Hlo Hdtype Ha. apply (Hready j lo dtype a); [|done].
    apply lookup_zip_with_Some. by exists lo, dtype. }
  split; [done|]. apply Forall_forall. intros c Hc.
  apply make_checks_check_elem_of in Hc as (i & col & Hcol & Hc).
  apply (checks_of_matches_inv lv arrays sizeof) in Hc
    as (j0 & x0 & j & x & H0 & _ & _ & Hj & ->).
  exists j0, x0, j, x. split; [done|].
  assert (∀ j x, col !! j = Some (Dim x) → is_Some (env st1 !! n_ (lv j) x)) as Hset.
  { intros j' x' Hj'.
    destruct (column_entry i col j' (Dim x') Hcol Hj') as (Hlt & lo & Hlo & Hix).
    destruct (lookup_lt_is_Some_2 dtypes j') as [dt Hdt]; [lia|].
    destruct (arrays_ok j' Hlt) as (a & Ha & _).
    destruct (Hready' j' lo dt a Hlo Hdt Ha) as [Hdims _].
    destruct (Hdims x') as (Hr & Hn & _); [by eapply list_elem_of_lookup_2|].
    rewrite Hn. by apply lookup_lt_is_Some_2. }
  split; by apply Hset.
Qed.



End Validation.

(** ** The pointer walk of the reduction nest *)

Section Walk.
Variable lv : nat → string.
Variable arrays : string → option pyarray.
Variable sizeof : string → Z.

Abbreviation run := (exec_list arrays sizeof).
Abbreviation value := (eval arrays sizeof).

Lemma turns_run (I : nat → state → Prop) body count i0 step st :
  I 0 st →
  (∀ k st, k < count → I k st →
     ∃ st', body (i0 + Z.of_nat k * step)%Z st = Done st' ∧ I (S k) st') →
  ∃ st', turns body count i0 step st = Done st' ∧ I count st'.
Proof.
  revert I i0 st. induction count as [|count IH]; intros I i0 st H0 Hstep.
  - by exists st.
  - cbn [turns]. destruct (Hstep 0 st) as (st1 & Hb & H1); [lia|done|].
    replace (i0 + Z.of_nat 0 * step)%Z with i0 in Hb by lia. rewrite Hb.
    cbn [bind_outcome].
    apply (IH (λ k, I (S k))); [done|]. intros k st2 Hk HI.
    destruct (Hstep (S k) st2) as (st3 & Hb3 & H3); [lia|done|].
    exists st3. split; [|done]. rewrite <- Hb3. f_equal. lia.
Qed.

Lemma exec_ForDown i n body st v :
  value st n = Some v → (0 ≤ v)%Z →
  exec arrays sizeof (ForDown i n body) st
  = turns (λ k st, bind_outcome (run body (set_env <[ITER_ i := k]> st))
                     (λ st', Done (set_refs (refs (set_env <[ITER_ i := k]> st)) st')))
          (Z.to_nat v) v (-1) st.
Proof. intros Hv Hpos. cbn [exec]. rewrite Hv. by rewrite decide_True. Qed.

(** The update of a level is one advance per operand. *)
Lemma loop_over_careduce_update i k indices update suitable_n :
  (foldl (loop_over_careduce_step lv i) (update, suitable_n)
         (enumerate_from k indices)).1
  = update ++ advances lv i (enumerate_from k indices).
Proof.
  revert k update suitable_n. induction indices as [|ix l IH]; intros k update sn.
  - cbn. by rewrite app_nil_r.
  - cbn [enumerate_from foldl loop_over_careduce_step]. rewrite IH.
    by rewrite <- (assoc_L (++)).
Qed.


Lemma set_iters_set_iters m m' st : set_iters m (set_iters m' st) = set_iters m st.
Proof. done. Qed.

Lemma set_iters_id st : set_iters (iters st) st = st.
Proof. by destruct st. Qed.

(** Running the pointer initialisations of a level. *)
Lemma inits_at_run i operands st :
  ∃ m, run (inits_at lv i operands) st = Done (set_iters m st) ∧
       (∀ j lo dtype, (j, (lo, dtype)) ∈ operands → preloop_level lo = i →
                      m !! lv j = Some 0%Z) ∧
       (∀ x, (∀ j lo dtype, (j, (lo, dtype)) ∈ operands → preloop_level lo = i →
                            lv j ≠ x) →
             m !! x = iters st !! x) ∧
       (∀ x, iters st !! x = Some 0%Z → m !! x = Some 0%Z).
Proof.
  revert st. induction operands as [|[j [lo dtype]] operands IH]; intros st.
  - exists (iters st). rewrite set_iters_id. split; [done|]. split; [|done].
    intros j lo dtype Hin. by apply elem_of_nil in Hin.
  - rewrite inits_at_cons. destruct (decide (preloop_level lo = i)) as [Hlevel|Hlevel].
    + cbn [app exec_list exec bind_outcome].
      destruct (IH (set_iters (<[lv j := 0%Z]> (iters st)) st))
        as (m & Hrun & Hset & Hkeep & Hzero).
      exists m. rewrite Hrun, set_iters_set_iters. split; [done|].
      split; [|split].
      * intros j' lo' dtype' Hin Hl. apply elem_of_cons in Hin as [[= -> -> ->]|Hin];
          [|by eapply Hset].
        apply Hzero. cbn. by rewrite lookup_insert_eq.
      * intros x Hx. rewrite Hkeep.
        -- cbn. rewrite lookup_insert_ne; [done|]. eapply Hx; [left|done].
        -- intros j' lo' dtype' Hin Hl. eapply Hx; [by right|done].
      * intros x Hx. apply Hzero. cbn.
        destruct (decide (lv j = x)) as [->|Hne];
          [by rewrite lookup_insert_eq|by rewrite lookup_insert_ne].
    + cbn [app]. destruct (IH st) as (m & Hrun & Hset & Hkeep & Hzero).
      exists m. split; [done|]. split; [|split; [|done]].
      * intros j' lo' dtype' Hin Hl. apply elem_of_cons in Hin as [[= -> -> ->]|Hin];
          [done|by eapply Hset].
      * intros x Hx. apply Hkeep. intros j' lo' dtype' Hin Hl.
        eapply Hx; [by right|done].
Qed.

(** Running the advances of a level. *)
Lemma advances_run i l st :
  NoDup ((λ p, lv p.1) <$> l) →
  (∀ j ix, (j, ix) ∈ l →
           is_Some (iters st !! lv j) ∧ is_Some (env st !! jump_ (lv j) ix i)) →
  ∃ m, run (advances lv i l) st = Done (set_iters m st) ∧
       (∀ j ix p v, (j, ix) ∈ l → iters st !! lv j = Some p →
                    env st !! jump_ (lv j) ix i = Some v →
                    m !! lv j = Some (p + v)%Z) ∧
       (∀ x, (∀ j ix, (j, ix) ∈ l → lv j ≠ x) → m !! x = iters st !! x).
Proof.
  revert st. induction l as [|[j ix] l IH]; intros st Hnodup Hdef.
  - exists (iters st). rewrite set_iters_id. split; [done|]. split; [|done].
    intros j ix p v Hin. by apply elem_of_nil in Hin.
  - cbn [fmap list_fmap] in Hnodup. apply NoDup_cons in Hnodup as [Hnotin Hnodup].
    destruct (Hdef j ix) as [[p Hp] [v Hv]]; [left|].
    cbn [advances fmap list_fmap exec_list exec eval]. rewrite Hp, Hv.
    cbn [mbind option_bind of_option bind_outcome].
    set (st1 := set_iters (<[lv j := (p + v)%Z]> (iters st)) st).
    assert (∀ j' ix', (j', ix') ∈ l → lv j' ≠ lv j) as Hother.
    { intros j' ix' Hin Heq. apply Hnotin. apply list_elem_of_fmap.
      exists (j', ix'). done. }
    destruct (IH st1 Hnodup) as (m & Hrun & Hset & Hkeep).
    { intros j' ix' Hin. destruct (Hdef j' ix') as [Hi He]; [by right|].
      split; [|done]. subst st1. cbn. rewrite lookup_insert_ne; [done|].
      intros Heq. by eapply Hother. }
    exists m. fold (advances lv i l). rewrite Hrun. subst st1.
    rewrite set_iters_set_iters. split; [done|]. split.
    + intros j' ix' p' v' Hin Hp' Hv'.
      apply elem_of_cons in Hin as [[= -> ->]|Hin].
      * rewrite Hkeep; [|intros j2 ix2 Hin2 Heq; by eapply Hother].
        cbn. rewrite lookup_insert_eq. congruence.
      * eapply Hset; [done| |done]. cbn. rewrite lookup_insert_ne; [done|].
        intros Heq. by eapply Hother.
    + intros x Hx. rewrite Hkeep.
      * cbn. rewrite lookup_insert_ne; [done|]. eapply Hx. left.
      * intros j' ix' Hin. eapply Hx. by right.
Qed.

End Walk.

(** A rectangular, non-empty list of rows has as many columns as a row
    has entries. *)
Lemma zip_star_rect_length {A} (ls : list (list A)) M :
  ls ≠ [] → (∀ l, l ∈ ls → length l = M) → length (zip_star ls) = M.
Proof.
  intros Hne Hrect. apply Nat.le_antisymm.
  - destruct (decide (length (zip_star ls) ≤ M)) as [|Hgt]; [done|].
    destruct (lookup_lt_is_Some_2 (zip_star ls) M) as [col Hcol]; [lia|].
    apply zip_star_lookup in Hcol as [Hlen Hcol].
    destruct ls as [|l ls']; [done|]. specialize (Hcol 0). cbn in Hcol.
    destruct col as [|x col]; [done|]. cbn in Hcol.
    symmetry in Hcol. apply lookup_lt_Some in Hcol.
    rewrite (Hrect l) in Hcol by left. lia.
  - destruct (decide (M ≤ length (zip_star ls))) as [|Hlt]; [done|].
    destruct (zip_star_lookup_is_Some ls (length (zip_star ls))) as [col Hcol].
    + done.
    + intros l Hl. rewrite (Hrect l Hl). lia.
    + apply lookup_lt_Some in Hcol. lia.
Qed.

Section Nest.
Variable lv : nat → string.
Variable arrays : string → option pyarray.
Variable sizeof : string → Z.
Variable los : list (list index).
Variable dtypes : list string.
Variable tasks : loop_tasks.
Variable M : nat.
Variable c : string.
Variable stride_at : nat → nat → Z.
Variable bound_at : nat → Z.
Variable e0 : gmap ident Z.

Abbreviation run := (exec_list arrays sizeof).
Abbreviation value := (eval arrays sizeof).

(** [adjust] as it stands when level [i] has just been completed. *)
Definition adjust_at (j i : nat) : Z :=
  if decide (i < M) then (bound_at i * stride_at j i)%Z else 0%Z.

Definition env_kept (st : state) : Prop :=
  ∀ x, not_ITER x → env st !! x = e0 !! x.

Definition level_of (j : nat) : nat := preloop_level (default [] (los !! j)).

Definition dims_from (j i : nat) : list (Z * Z) :=
  (λ i', (bound_at i', stride_at j i')) <$> seq i (M - i).

Definition nest (i : nat) : list stmt :=
  foldl (make_loop_careduce_step lv (make_preloops lv los dtypes)) []
        (reverse (drop i (level_triples los tasks))).

Hypothesis lv_inj : ∀ i j, i < length los → j < length los → lv i = lv j → i = j.
Hypothesis rect : ∀ lo, lo ∈ los → length lo = M.
Hypothesis dtypes_length : length dtypes = length los.
Hypothesis tasks_length : length (level_tasks tasks) = M.
Hypothesis los_nonempty : los ≠ [].
Hypothesis task_codes :
  ∀ i pre t, level_tasks tasks !! i = Some (pre, t) →
             pre ≠ c ∧ (i + 1 < M → t ≠ c) ∧ (i + 1 = M → t = c).
Hypothesis jumps_set :
  ∀ j lo i ix, los !! j = Some lo → lo !! i = Some ix →
    e0 !! jump_ (lv j) ix i = Some (stride_at j i - adjust_at j (i + 1))%Z.
Hypothesis broadcast_stride :
  ∀ j lo i, los !! j = Some lo → lo !! i = Some X → stride_at j i = 0%Z.
Hypothesis bounds_set :
  ∀ i col st, zip_star los !! i = Some col → env_kept st →
    value st (suitable_length lv col) = Some (bound_at i).
Hypothesis bounds_nonneg : ∀ i, (0 ≤ bound_at i)%Z.
Hypothesis bounds_pos :
  ∀ j i, j < length los → 1 ≤ i → i < level_of j → (1 ≤ bound_at i)%Z.

Lemma lookup_lo j : j < length los → ∃ lo, los !! j = Some lo ∧ length lo = M.
Proof.
  intros Hj. destruct (lookup_lt_is_Some_2 los j Hj) as [lo Hlo].
  exists lo. split; [done|]. apply rect. by eapply list_elem_of_lookup_2.
Qed.

Lemma first_dim_pos_before k (lo : loop_order) p :
  first_dim_pos (enumerate_from k lo) = Some p →
  ∀ i, i < p - k → lo !! i = Some X.
Proof.
  revert k. induction lo as [|ix lo IH]; intros k; [done|].
  cbn [enumerate_from first_dim_pos]. destruct ix as [|d].
  - intros Hp [|i] Hi; [done|]. cbn. apply (IH (S k) Hp). 
    pose proof (first_dim_pos_from (S k) lo) as Hfrom. rewrite Hp in Hfrom.
    lia.
  - intros [= <-] i Hi. lia.
Qed.

Lemma level_of_spec j lo :
  los !! j = Some lo →
  level_of j = preloop_level lo ∧
  (0 < M → level_of j < M) ∧
  (∀ i, i < level_of j → lo !! i = Some X).
Proof.
  intros Hlo. unfold level_of, loop_order in *. rewrite Hlo. simpl.
  assert (length lo = M) as Hlen by (apply rect; by eapply list_elem_of_lookup_2).
  split; [done|]. unfold preloop_level, enumerate.
  pose proof (first_dim_pos_from 0 lo) as Hfrom.
  pose proof (first_dim_pos_before 0 lo) as Hbefore.
  destruct (first_dim_pos (enumerate_from 0 lo)) as [p|]; simpl.
  - destruct Hfrom as [_ [d Hd]]. rewrite Nat.sub_0_r in Hd.
    apply lookup_lt_Some in Hd. split; [lia|].
    intros i Hi. apply (Hbefore p eq_refl). lia.
  - split; [done|]. intros i Hi. lia.
Qed.

Lemma zip_star_length : length (zip_star los) = M.
Proof. by apply zip_star_rect_length. Qed.

Lemma column_lookup i : i < M → ∃ col,
  zip_star los !! i = Some col ∧ length col = length los ∧
  ∀ j ix, (j, ix) ∈ enumerate col ↔ ∃ lo, los !! j = Some lo ∧ lo !! i = Some ix.
Proof.
  intros Hi. destruct (lookup_lt_is_Some_2 (zip_star los) i) as [col Hcol].
  { by rewrite zip_star_length. }
  exists col. split; [done|]. apply zip_star_lookup in Hcol as [Hlen Hcol].
  split; [done|]. intros j ix. rewrite list_elem_of_lookup. split.
  - intros [p Hp]. rewrite enumerate_lookup in Hp.
    destruct (col !! p) as [ix'|] eqn:Hcp; [|done]. cbn in Hp. simplify_eq.
    rewrite Hcol in Hcp. destruct (los !! j) as [lo|] eqn:Hlo; cbn in Hcp; [|done].
    by exists lo.
  - intros (lo & Hlo & Hix). exists j. by rewrite enumerate_lookup, Hcol, Hlo; cbn; rewrite Hix.
Qed.

Lemma column_names_NoDup col :
  length col = length los →
  NoDup ((λ p : nat * index, lv p.1) <$> enumerate col).
Proof.
  intros Hlen. apply NoDup_alt. intros p q x Hp Hq.
  rewrite list_lookup_fmap, enumerate_lookup in Hp, Hq.
  destruct (col !! p) as [ixp|] eqn:Hcp; [|done].
  destruct (col !! q) as [ixq|] eqn:Hcq; [|done].
  cbn in Hp, Hq. apply lookup_lt_Some in Hcp, Hcq.
  apply lv_inj; [lia|lia|congruence].
Qed.

Lemma nest_beyond : nest M = [].
Proof.
  unfold nest. rewrite drop_ge; [done|].
  unfold level_triples. rewrite !length_zip_with, length_seq. lia.
Qed.

Lemma nest_level i : i < M → ∃ pre_task task col,
  level_tasks tasks !! i = Some (pre_task, task) ∧
  zip_star los !! i = Some col ∧
  nest i
  = (inits_at lv i (enumerate (zip los dtypes)) ++ [Task pre_task])
    ++ [ForDown i (suitable_length lv col)
          ((nest (S i) ++ [Task task]) ++ advances lv i (enumerate col))].
Proof.
  intros Hi.
  destruct (lookup_lt_is_Some_2 (level_tasks tasks) i) as [[pre_task task] Ht]; [lia|].
  destruct (column_lookup i Hi) as (col & Hcol & _).
  exists pre_task, task, col. split; [done|]. split; [done|].
  unfold nest.
  rewrite (drop_S _ (i, ((pre_task, task), col)) i)
    by (by rewrite level_triples_lookup, Ht, Hcol).
  rewrite reverse_cons, foldl_app. cbn [foldl make_loop_careduce_step].
  unfold loop_over_careduce.
  pose proof (loop_over_careduce_update lv i 0 col [] (Const 1)) as Hupd.
  destruct (loop_over_careduce_fold lv i 0 col [] (Const 1)) as [_ Hsn]; [constructor|].
  fold (enumerate col) in Hupd, Hsn.
  destruct (foldl _ _ (enumerate col)) as [update sn]. cbn [fst snd] in *.
  rewrite make_preloops_lookup. subst update. cbn [app].
  unfold suitable_length. by rewrite Hsn.
Qed.


Definition ptr_ready (i : nat) (b : nat → Z) (st : state) : Prop :=
  ∀ j, j < length los → level_of j < i → iters st !! lv j = Some (b j).

Definition base_of (i : nat) (b : nat → Z) (j : nat) : Z :=
  if decide (level_of j < i) then b j else 0%Z.

Definition nest_ok (code : list stmt) (i : nat) (b : nat → Z) (st : state)
    (exit_cond : nat → Prop) (adj : nat → Z) : Prop :=
  ∃ st' evs,
    run code st = Done st' ∧ env_kept st' ∧ trace st' = trace st ++ evs ∧
    ∀ j, j < length los →
      visits_iter c (lv j) evs = Some <$> walk (dims_from j i) (base_of i b j) ∧
      (exit_cond j → iters st' !! lv j = Some (base_of i b j + adj j)%Z).

Lemma visits_iter_app code var tr1 tr2 :
  visits_iter code var (tr1 ++ tr2)
  = visits_iter code var tr1 ++ visits_iter code var tr2.
Proof. unfold visits_iter. by rewrite filter_app, fmap_app. Qed.

Lemma visits_iter_other code code' var it rf :
  code' ≠ code → visits_iter code var [Event code' it rf] = [].
Proof.
  intros Hne. unfold visits_iter. rewrite filter_cons_False; [done|]. by cbn.
Qed.

Lemma visits_iter_same code var it rf :
  visits_iter code var [Event code it rf] = [it !! var].
Proof. unfold visits_iter. by rewrite filter_cons_True. Qed.

Lemma dims_from_cons j i :
  i < M → dims_from j i = (bound_at i, stride_at j i) :: dims_from j (S i).
Proof.
  intros Hi. unfold dims_from. replace (M - i) with (S (M - S i)) by lia. done.
Qed.

Lemma dims_from_beyond j : dims_from j M = [].
Proof. unfold dims_from. by rewrite Nat.sub_diag. Qed.

(** The code of the innermost level. *)
Lemma code_innermost i pre t st b :
  S i = M → level_tasks tasks !! i = Some (pre, t) →
  env_kept st → ptr_ready (S i) b st →
  nest_ok (nest (S i) ++ [Task t]) (S i) b st (λ _, True)
          (λ j, adjust_at j (S i)).
Proof.
  intros HM Ht Hkept Hready. rewrite HM, nest_beyond. cbn [app].
  destruct (task_codes i pre t Ht) as (_ & _ & Hc). rewrite (Hc ltac:(lia)).
  eexists _, [_]. split; [reflexivity|]. split; [done|]. split; [done|].
  intros j Hj. destruct (lookup_lo j Hj) as (lo & Hlo & _).
  destruct (level_of_spec j lo Hlo) as (_ & Hlt & _).
  assert (level_of j < M) as Hlevel by (apply Hlt; lia).
  rewrite visits_iter_same, dims_from_beyond. unfold base_of, adjust_at.
  rewrite decide_True by lia. rewrite (decide_False (P := M < M)) by lia.
  rewrite <- HM in Hlevel. cbn. rewrite (Hready j Hj Hlevel).
  split; [done|]. intros _. f_equal. lia.
Qed.

(** The code of a level that has inner levels, from what these do. *)
Lemma code_outer i pre t st b :
  S i < M → level_tasks tasks !! i = Some (pre, t) →
  (∀ st b, env_kept st → ptr_ready (S i) b st →
     nest_ok (nest (S i)) (S i) b st
       (λ j, ∀ i', S i ≤ i' → i' < level_of j → (1 ≤ bound_at i')%Z)
       (λ j, (bound_at (S i) * stride_at j (S i))%Z)) →
  env_kept st → ptr_ready (S i) b st →
  nest_ok (nest (S i) ++ [Task t]) (S i) b st (λ _, True)
          (λ j, adjust_at j (S i)).
Proof.
  intros HM Ht Hinner Hkept Hready.
  destruct (Hinner st b Hkept Hready) as (st' & evs & Hrun & Hkept' & Htrace & Hops).
  destruct (task_codes i pre t Ht) as (_ & Hc & _).
  eexists _, (evs ++ [_]). rewrite exec_list_app, Hrun. cbn [bind_outcome exec_list exec].
  split; [reflexivity|]. split; [done|]. split.
  { cbn. by rewrite Htrace, (assoc_L (++)). }
  intros j Hj. destruct (Hops j Hj) as [Hvisits Hexit].
  rewrite visits_iter_app, Hvisits, visits_iter_other, app_nil_r by (apply Hc; lia).
  split; [done|]. intros _. cbn. unfold adjust_at. rewrite decide_True by lia.
  apply Hexit. intros i' Hle Hlt. apply (bounds_pos j i'); [done|lia|done].
Qed.


Lemma operand_in_column i col j :
  i < M → j < length los →
  (∀ j ix, (j, ix) ∈ enumerate col ↔ ∃ lo, los !! j = Some lo ∧ lo !! i = Some ix) →
  ∃ ix, (j, ix) ∈ enumerate col.
Proof.
  intros Hi Hj Hcol. destruct (lookup_lo j Hj) as (lo & Hlo & Hlen).
  destruct (lookup_lt_is_Some_2 lo i) as [ix Hix]; [lia|].
  exists ix. apply Hcol. eauto.
Qed.

Lemma stride_before_level j i :
  j < length los → i < level_of j → stride_at j i = 0%Z.
Proof.
  intros Hj Hi. destruct (lookup_lo j Hj) as (lo & Hlo & _).
  destruct (level_of_spec j lo Hlo) as (_ & _ & Hx).
  by apply (broadcast_stride j lo i Hlo), Hx.
Qed.

Lemma base_of_step i b k j :
  j < length los →
  base_of (S i) (λ j, base_of i b j + Z.of_nat k * stride_at j i)%Z j
  = (base_of i b j + Z.of_nat k * stride_at j i)%Z.
Proof.
  intros Hj. unfold base_of at 1. case_decide as Hlevel; [done|].
  unfold base_of. rewrite decide_False by lia.
  rewrite stride_before_level by (done || lia). lia.
Qed.

Lemma inits_ready i st b (m : gmap string Z) :
  ptr_ready i b st →
  (∀ j lo dtype, (j, (lo, dtype)) ∈ enumerate (zip los dtypes) →
                 preloop_level lo = i → m !! lv j = Some 0%Z) →
  (∀ x, (∀ j lo dtype, (j, (lo, dtype)) ∈ enumerate (zip los dtypes) →
                       preloop_level lo = i → lv j ≠ x) →
        m !! x = iters st !! x) →
  ∀ j, j < length los → level_of j ≤ i → m !! lv j = Some (base_of i b j).
Proof.
  intros Hready Hset Hkeep j Hj Hlevel.
  destruct (lookup_lo j Hj) as (lo & Hlo & _).
  destruct (level_of_spec j lo Hlo) as (Hlv & _ & _).
  unfold base_of. case_decide as Hlt.
  - rewrite Hkeep; [by apply Hready|].
    intros j2 lo2 dtype2 Hin Hl2 Heq.
    apply elem_of_enumerate_zip in Hin as [Hlo2 _].
    assert (j2 = j) as Hj2.
    { apply lv_inj; [by eapply lookup_lt_Some|done..]. }
    subst j2. unfold loop_order in *. assert (lo2 = lo) as -> by congruence. lia.
  - destruct (lookup_lt_is_Some_2 dtypes j) as [dtype Hdtype]; [lia|].
    apply (Hset j lo dtype); [by apply elem_of_enumerate_zip|lia].
Qed.

(** One level of the nest, from what the code inside its loop does. *)
Lemma level_run i st b :
  i < M →
  (∀ pre t st b, level_tasks tasks !! i = Some (pre, t) →
     env_kept st → ptr_ready (S i) b st →
     nest_ok (nest (S i) ++ [Task t]) (S i) b st (λ _, True)
             (λ j, adjust_at j (S i))) →
  env_kept st → ptr_ready i b st →
  nest_ok (nest i) i b st
    (λ j, ∀ i', i ≤ i' → i' < level_of j → (1 ≤ bound_at i')%Z)
    (λ j, (bound_at i * stride_at j i)%Z).
Proof.
  intros Hi Hcode Hkept Hready.
  destruct (nest_level i Hi) as (pre_task & task & col & Ht & Hcol & ->).
  destruct (column_lookup i Hi) as (col' & Hcol' & Hlen & Hmem).
  rewrite Hcol in Hcol'. injection Hcol' as <-.
  destruct (task_codes i pre_task task Ht) as (Hpre & _ & _).
  specialize (Hcode pre_task task).
  (* the pointer initialisations and the task before the loop *)
  destruct (inits_at_run lv arrays sizeof i (enumerate (zip los dtypes)) st)
    as (m & Hrun1 & Hset & Hkeep & _).
  pose proof (inits_ready i st b m Hready Hset Hkeep) as Hm.
  set (st_b := log (Event pre_task m (refs st)) (set_iters m st)).
  assert (env_kept st_b) as Hkept_b by done.
  unfold nest_ok.
  assert (run ((inits_at lv i (enumerate (zip los dtypes)) ++ [Task pre_task])
               ++ [ForDown i (suitable_length lv col)
                     ((nest (S i) ++ [Task task]) ++ advances lv i (enumerate col))]) st
          = exec arrays sizeof
              (ForDown i (suitable_length lv col)
                 ((nest (S i) ++ [Task task]) ++ advances lv i (enumerate col))) st_b)
    as ->.
  { set (loop := ForDown _ _ _). rewrite !exec_list_app, Hrun1.
    cbn [bind_outcome exec_list exec].
    change (log _ (set_iters m st)) with st_b.
    by destruct (exec arrays sizeof loop st_b). }
  rewrite (exec_ForDown arrays sizeof i _ _ st_b (bound_at i));
    [|by apply (bounds_set i col)|done].
  (* the turns of the loop *)
  set (Turn := λ (k : nat) (stk : state),
         env_kept stk ∧
         ∃ evs, trace stk = trace st_b ++ evs ∧
           ∀ j, j < length los →
             visits_iter c (lv j) evs
             = Some <$> (k' ← seq 0 k;
                         walk (dims_from j (S i))
                              (base_of i b j + Z.of_nat k' * stride_at j i)%Z) ∧
             (level_of j ≤ i ∨ 1 ≤ k →
              iters stk !! lv j
              = Some (base_of i b j + Z.of_nat k * stride_at j i)%Z)).
  destruct (turns_run Turn
              (λ k st, bind_outcome
                 (run ((nest (S i) ++ [Task task]) ++ advances lv i (enumerate col))
                      (set_env <[ITER_ i := k]> st))
                 (λ st', Done (set_refs (refs (set_env <[ITER_ i := k]> st)) st')))
              (Z.to_nat (bound_at i)) (bound_at i) (-1) st_b)
    as (st' & Hturns & Hkept' & evs & Htrace & Hops).
  - (* before the first turn *)
    split; [done|]. exists []. split; [by rewrite app_nil_r|].
    intros j Hj. split; [done|]. intros [Hlevel|Hk]; [|lia].
    cbn. rewrite (Hm j Hj Hlevel). f_equal. lia.
  - (* one turn *)
    intros k stk Hk (Hkept_k & evs & Htrace & Hops).
    set (st1 := set_env <[ITER_ i := (bound_at i + Z.of_nat k * -1)%Z]> stk).
    assert (env_kept st1) as Hkept1.
    { intros x Hx. cbn. rewrite lookup_insert_ne; [by apply Hkept_k|].
      intros <-. done. }
    destruct (Hcode st1 (λ j, base_of i b j + Z.of_nat k * stride_at j i)%Z
                Ht Hkept1)
      as (st2 & evs2 & Hrun2 & Hkept2 & Htrace2 & Hops2).
    { intros j Hj Hlevel. apply Hops; [done|]. left. lia. }
    destruct (advances_run lv arrays sizeof i (enumerate col) st2)
      as (m3 & Hrun3 & Hset3 & _).
    { by apply column_names_NoDup. }
    { intros j ix Hin. destruct (proj1 (Hmem j ix) Hin) as (lo & Hlo & Hix).
      assert (j < length los) as Hj by (by eapply lookup_lt_Some).
      destruct (Hops2 j Hj) as [_ Hexit]. rewrite (Hexit I).
      rewrite Hkept2 by done. rewrite (jumps_set j lo i ix Hlo Hix).
      split; by eexists. }
    eexists. rewrite exec_list_app, Hrun2. cbn [bind_outcome].
    rewrite Hrun3. cbn [bind_outcome]. split; [reflexivity|].
    split; [done|]. exists (evs ++ evs2). split.
    { cbn. rewrite Htrace2. cbn. by rewrite Htrace, (assoc_L (++)). }
    intros j Hj. destruct (Hops j Hj) as [Hvisits _].
    destruct (Hops2 j Hj) as [Hvisits2 Hexit2]. split.
    + rewrite visits_iter_app, Hvisits, Hvisits2, base_of_step by done.
      rewrite seq_S, bind_app, fmap_app. cbn. by rewrite app_nil_r.
    + intros _. destruct (operand_in_column i col j Hi Hj Hmem) as [ix Hin].
      destruct (proj1 (Hmem j ix) Hin) as (lo & Hlo & Hix).
      cbn. rewrite (Hset3 j ix _ _ Hin (Hexit2 I)
                      (eq_trans (Hkept2 (jump_ (lv j) ix i) I) (jumps_set j lo i ix Hlo Hix))).
      rewrite base_of_step by done. replace (i + 1) with (S i) by lia.
      f_equal. lia.
  - (* after the last turn *)
    exists st', (Event pre_task m (refs st) :: evs). split; [done|].
    split; [done|]. split.
    { rewrite Htrace. cbn. by rewrite <- (assoc_L (++)). }
    intros j Hj. destruct (Hops j Hj) as [Hvisits Hexit]. split.
    + change (?e :: evs) with ([e] ++ evs).
      rewrite visits_iter_app, visits_iter_other by done.
      rewrite Hvisits. rewrite (dims_from_cons j i Hi). done.
    + intros Hcond. rewrite Hexit.
      * by rewrite Z2Nat.id.
      * destruct (decide (level_of j ≤ i)) as [|Hgt]; [by left|right].
        specialize (Hcond i). pose proof (bounds_nonneg i). lia.
Qed.

(** Every level of the nest. *)
Lemma levels_run k : ∀ i st b,
  M - i = k → i < M →
  env_kept st → ptr_ready i b st →
  nest_ok (nest i) i b st
    (λ j, ∀ i', i ≤ i' → i' < level_of j → (1 ≤ bound_at i')%Z)
    (λ j, (bound_at i * stride_at j i)%Z).
Proof.
  induction k as [|k IH]; intros i st b Hk Hi; [lia|].
  apply level_run; [done|]. intros pre t st1 b1 Ht.
  destruct (decide (S i = M)) as [HM|HM].
  - by apply (code_innermost i pre t).
  - apply (code_outer i pre t); [lia|done|]. intros st2 b2.
    apply IH; lia.
Qed.


(** The whole nest of [make_loop_careduce], from any state in which the
    jump and length variables hold what the hypotheses say. *)
Lemma careduce_nest_run st :
  1 ≤ M → last_task tasks ≠ c → env_kept st →
  ∃ st' evs,
    exec arrays sizeof (make_loop_careduce lv los dtypes tasks) st = Done st' ∧
    trace st' = trace st ++ evs ∧
    ∀ j, j < length los →
      visits_iter c (lv j) evs = Some <$> walk (dims_from j 0) 0.
Proof.
  intros HM Hlast Hkept.
  destruct (levels_run M 0 st (λ _, 0%Z)) as (st1 & evs & Hrun & _ & Htrace & Hops);
    [lia|lia|done| |].
  { intros j _ Hlevel. lia. }
  assert (make_loop_careduce lv los dtypes tasks
          = Block (nest 0 ++ [Task (last_task tasks)])) as ->.
  { unfold make_loop_careduce, nest. rewrite drop_0.
    destruct (level_tasks tasks) as [|t ts] eqn:Htasks; [|done].
    rewrite <- tasks_length in HM. cbn in HM. lia. }
  eexists _, (evs ++ [_]). cbn [exec].
  change ((fix exec_list (l : list stmt) (st0 : state) {struct l} : outcome :=
             match l with
             | [] => Done st0
             | s' :: l' => bind_outcome (exec arrays sizeof s' st0) (exec_list l')
             end) (nest 0 ++ [Task (last_task tasks)]) st)
    with (run (nest 0 ++ [Task (last_task tasks)]) st).
  rewrite exec_list_app, Hrun. cbn [bind_outcome exec_list exec].
  split; [reflexivity|]. split.
  { cbn. by rewrite Htrace, (assoc_L (++)). }
  intros j Hj. destruct (Hops j Hj) as [Hvisits _].
  rewrite visits_iter_app, Hvisits, visits_iter_other, app_nil_r by done.
  unfold base_of. by rewrite decide_False by lia.
Qed.

End Nest.

(** ** From the checks to the reduction nest *)

Section Pipeline.
Variable lv : nat → string.
Variable arrays : string → option pyarray.
Variable sizeof : string → Z.
Variable los : list (list index).
Variable dtypes : list string.

Abbreviation run := (exec_list arrays sizeof).
Abbreviation value := (eval arrays sizeof).

(** The jump of a position is the stride of the position minus what the
    next position leaves in [adjust]. *)
Lemma jump_table_lookup bs i b :
  bs !! i = Some b →
  (jump_table bs).1 !! i
  = Some (match b with Some (s, _) => s | None => 0 end
          - match bs !! S i with
            | Some (Some (s, n)) => n * s
            | _ => 0
            end)%Z.
Proof.
  revert i. induction bs as [|b0 bs IH]; intros i Hi; [done|].
  assert ((jump_table bs).2
          = match bs !! 0 with Some (Some (s, n)) => (n * s)%Z | _ => 0%Z end)
    as Hadj.
  { destruct bs as [|[[s n]|] bs']; cbn; [done| |];
      by destruct (jump_table bs'). }
  cbn [jump_table]. destruct (jump_table bs) as [jumps adjust] eqn:Htab.
  cbn [snd] in Hadj. destruct i as [|i].
  - injection Hi as ->. destruct b as [[s n]|]; cbn; rewrite Hadj; f_equal; lia.
  - specialize (IH i Hi). cbn [fst] in IH.
    by destruct b0 as [[s n]|].
Qed.

Lemma last_dim_Some k (col : list index) j d :
  last_dim (enumerate_from k col) = Some (j, d) →
  k ≤ j ∧ col !! (j - k) = Some (Dim d).
Proof.
  revert k. induction col as [|ix col IH]; intros k; [done|].
  cbn [enumerate_from last_dim].
  destruct (last_dim (enumerate_from (S k) col)) as [[j' d']|] eqn:Hlast.
  - intros [= -> ->]. destruct (IH (S k) Hlast) as [Hle Hd]. split; [lia|].
    by replace (j - k) with (S (j - S k)) by lia.
  - destruct ix as [|d0]; [done|]. intros [= -> ->].
    split; [done|]. by rewrite Nat.sub_diag.
Qed.


Lemma last_dim_None k (col : list index) :
  last_dim (enumerate_from k col) = None → ∀ ix, ix ∈ col → ix = X.
Proof.
  revert k. induction col as [|ix col IH]; intros k Hlast ix' Hin.
  - by apply elem_of_nil in Hin.
  - cbn [enumerate_from last_dim] in Hlast.
    destruct (last_dim (enumerate_from (S k) col)) as [[j d]|] eqn:Hrest; [done|].
    destruct ix as [|d]; [|done].
    apply elem_of_cons in Hin as [->|Hin]; [done|]. by apply (IH (S k)).
Qed.

Variable M : nat.

Hypothesis lv_inj : ∀ p q, p < length los → q < length los → lv p = lv q → p = q.
Hypothesis rect : ∀ lo, lo ∈ los → length lo = M.
Hypothesis dtypes_length : length dtypes = length los.
Hypothesis los_nonempty : los ≠ [].
Hypothesis arrays_ok :
  ∀ j, j < length los →
       ∃ a, arrays (lv j) = Some a ∧ length (strides a) = length (shape a) ∧
            Forall (λ n, 0 ≤ n)%Z (shape a).

Definition stride_at (j i : nat) : Z :=
  match los !! j, dtypes !! j, arrays (lv j) with
  | Some lo, Some dtype, Some a =>
      default 0%Z ((stride_of sizeof a dtype <$> lo) !! i)
  | _, _, _ => 0%Z
  end.

Definition bound_at (i : nat) : Z := default 0%Z (extents arrays lv los !! i).

Lemma stride_at_lookup j (lo : list index) dtype a i ix :
  los !! j = Some lo → dtypes !! j = Some dtype → arrays (lv j) = Some a →
  lo !! i = Some ix → stride_at j i = stride_of sizeof a dtype ix.
Proof.
  intros Hlo Hdtype Ha Hix. unfold stride_at.
  by rewrite Hlo, Hdtype, Ha, list_lookup_fmap, Hix.
Qed.

Lemma bound_at_lookup i (col : list index) :
  zip_star los !! i = Some col → bound_at i = extent arrays lv col.
Proof.
  intros Hcol. unfold bound_at, extents. by rewrite list_lookup_fmap, Hcol.
Qed.

Lemma operand_data j (lo : list index) :
  los !! j = Some lo →
  j < length los ∧ length lo = M ∧
  ∃ dtype a, dtypes !! j = Some dtype ∧ arrays (lv j) = Some a ∧
             length (strides a) = length (shape a) ∧
             Forall (λ n, 0 ≤ n)%Z (shape a).
Proof.
  intros Hlo. assert (j < length los) as Hj by (by eapply lookup_lt_Some).
  split; [done|]. split; [apply rect; by eapply list_elem_of_lookup_2|].
  destruct (lookup_lt_is_Some_2 dtypes j) as [dtype Hdtype]; [lia|].
  destruct (arrays_ok j Hj) as (a & Ha & Hlen & Hnn). by exists dtype, a.
Qed.

Section AfterChecks.
Variable st0 st1 : state.
Hypothesis checks_done : run (make_checks lv los dtypes) st0 = Done st1.

Lemma checked :
  (∀ j lo dtype a,
     los !! j = Some lo → dtypes !! j = Some dtype → arrays (lv j) = Some a →
     operand_ready sizeof (lv j) dtype a lo st1) ∧
  (∀ i col j1 d1 j2 d2 a1 a2,
     zip_star los !! i = Some col →
     col !! j1 = Some (Dim d1) → col !! j2 = Some (Dim d2) →
     arrays (lv j1) = Some a1 → arrays (lv j2) = Some a2 →
     shape a1 !! d1 = shape a2 !! d2).
Proof.
  destruct (checks_run_to_end lv arrays sizeof los dtypes lv_inj dtypes_length)
    with (st := st0) (st' := st1) as (Hready & Hagree & _); [|done..].
  intros j Hj. destruct (arrays_ok j Hj) as (a & Ha & Hlen & _). eauto.
Qed.

(** The extent of a column is the length of every dimension bound in it. *)
Lemma extent_of_entry i (col : list index) j d a :
  zip_star los !! i = Some col → col !! j = Some (Dim d) →
  arrays (lv j) = Some a →
  d < length (shape a) ∧ shape a !! d = Some (extent arrays lv col).
Proof.
  intros Hcol Hj Ha. destruct checked as [Hready Hagree].
  destruct (column_entry los i col j (Dim d) Hcol Hj) as (Hlt & lo & Hlo & Hix).
  destruct (operand_data j lo Hlo) as (_ & _ & dtype & a' & Hdtype & Ha' & _).
  assert (a' = a) as -> by congruence.
  destruct (Hready j lo dtype a Hlo Hdtype Ha) as [Hdims _].
  destruct (Hdims d) as (Hrank & _); [by eapply list_elem_of_lookup_2|].
  split; [done|]. unfold extent, enumerate.
  destruct (last_dim (enumerate_from 0 col)) as [[jl dl]|] eqn:Hlast.
  - apply last_dim_Some in Hlast as [_ Hl]. rewrite Nat.sub_0_r in Hl.
    destruct (column_entry los i col jl (Dim dl) Hcol Hl) as (Hltl & _).
    destruct (arrays_ok jl Hltl) as (al & Hal & _). rewrite Hal. cbn.
    rewrite <- (Hagree i col j d jl dl a al Hcol Hj Hl Ha Hal).
    destruct (lookup_lt_is_Some_2 (shape a) d Hrank) as [n Hn]. by rewrite Hn.
  - apply last_dim_None with (ix := Dim d) in Hlast; [done|].
    by eapply list_elem_of_lookup_2.
Qed.

Lemma jumps_after_checks j (lo : list index) i ix :
  los !! j = Some lo → lo !! i = Some ix →
  env st1 !! jump_ (lv j) ix i
  = Some (stride_at j i - adjust_at M stride_at bound_at j (i + 1))%Z.
Proof.
  intros Hlo Hix. destruct checked as [Hready _].
  destruct (operand_data j lo Hlo) as (Hj & Hlen & dtype & a & Hdtype & Ha & _).
  destruct (Hready j lo dtype a Hlo Hdtype Ha) as [_ Hjumps].
  rewrite (Hjumps i ix Hix).
  rewrite (jump_table_lookup _ i (binding sizeof a dtype ix))
    by (by rewrite list_lookup_fmap, Hix).
  rewrite (stride_at_lookup j lo dtype a i ix) by done.
  f_equal. unfold stride_of at 1. f_equal.
  replace (i + 1) with (S i) by lia. unfold adjust_at.
  rewrite list_lookup_fmap. destruct (lo !! S i) as [ix'|] eqn:Hix'.
  - rewrite decide_True by (apply lookup_lt_Some in Hix'; lia).
    rewrite (stride_at_lookup j lo dtype a (S i) ix') by done.
    destruct ix' as [|d']; cbn; [lia|].
    assert (S i < M) as HSi by (apply lookup_lt_Some in Hix'; lia).
    destruct (lookup_lt_is_Some_2 (zip_star los) (S i)) as [col Hcol].
    { by rewrite (zip_star_rect_length los M los_nonempty rect). }
    rewrite (bound_at_lookup (S i) col Hcol).
    destruct (extent_of_entry (S i) col j d' a Hcol) as [_ ->]; [|done|].
    + apply zip_star_lookup in Hcol as [_ Hcol]. by rewrite Hcol, Hlo.
    + unfold stride_of. cbn. done.
  - cbn. rewrite decide_False; [done|]. apply lookup_ge_None in Hix'. lia.
Qed.

Lemma bounds_after_checks i (col : list index) st :
  zip_star los !! i = Some col → env_kept (env st1) st →
  value st (suitable_length lv col) = Some (bound_at i).
Proof.
  intros Hcol Hkept. rewrite (bound_at_lookup i col Hcol).
  unfold suitable_length, extent, enumerate.
  destruct (last_dim (enumerate_from 0 col)) as [[j d]|] eqn:Hlast; [|done].
  apply last_dim_Some in Hlast as [_ Hl]. rewrite Nat.sub_0_r in Hl.
  destruct (column_entry los i col j (Dim d) Hcol Hl) as (Hlt & lo & Hlo & Hix).
  destruct (operand_data j lo Hlo) as (_ & _ & dtype & a & Hdtype & Ha & _).
  destruct checked as [Hready _].
  destruct (Hready j lo dtype a Hlo Hdtype Ha) as [Hdims _].
  destruct (Hdims d) as (Hrank & Hn & _); [by eapply list_elem_of_lookup_2|].
  cbn [eval]. rewrite Hkept by done. rewrite Hn, Ha. cbn.
  destruct (lookup_lt_is_Some_2 (shape a) d Hrank) as [n Hnd]. by rewrite Hnd.
Qed.

Lemma bounds_nonneg i : (0 ≤ bound_at i)%Z.
Proof.
  unfold bound_at, extents. rewrite list_lookup_fmap.
  destruct (zip_star los !! i) as [col|] eqn:Hcol; [|done]. cbn.
  unfold extent, enumerate.
  destruct (last_dim (enumerate_from 0 col)) as [[j d]|] eqn:Hlast; [|done].
  apply last_dim_Some in Hlast as [_ Hl]. rewrite Nat.sub_0_r in Hl.
  destruct (column_entry los i col j (Dim d) Hcol Hl) as (Hlt & _).
  destruct (arrays_ok j Hlt) as (a & -> & _ & Hnn). cbn.
  destruct (shape a !! d) as [n|] eqn:Hn; [|done]. cbn.
  rewrite Forall_forall in Hnn. apply Hnn. by eapply list_elem_of_lookup_2.
Qed.

Lemma dims_from_operand j (lo : list index) dtype a :
  los !! j = Some lo → dtypes !! j = Some dtype → arrays (lv j) = Some a →
  dims_from M stride_at bound_at j 0 = operand_dims arrays sizeof lv los a dtype lo.
Proof.
  intros Hlo Hdtype Ha. destruct (operand_data j lo Hlo) as (_ & Hlen & _).
  unfold dims_from, operand_dims. apply list_eq. intros i.
  rewrite list_lookup_fmap, lookup_zip_with, Nat.sub_0_r.
  destruct (decide (i < M)) as [Hi|Hi].
  - rewrite lookup_seq_lt by done. cbn.
    destruct (lookup_lt_is_Some_2 (extents arrays lv los) i) as [n Hn].
    { unfold extents. by rewrite length_fmap, (zip_star_rect_length los M los_nonempty rect). }
    destruct (lookup_lt_is_Some_2 lo i) as [ix Hix]; [lia|].
    rewrite (stride_at_lookup j lo dtype a i ix) by done.
    unfold bound_at. rewrite Hn, list_lookup_fmap, Hix. done.
  - rewrite lookup_seq_ge by lia. cbn.
    rewrite (lookup_ge_None_2 (extents arrays lv los)); [done|].
    unfold extents. rewrite length_fmap, (zip_star_rect_length los M los_nonempty rect). lia.
Qed.

(** The tasks of the nest: the innermost task is told from the others by
    its text [c]. *)
Variable tasks : loop_tasks.
Variable c : string.

Hypothesis tasks_length : length (level_tasks tasks) = M.
Hypothesis levels : 1 ≤ M.
Hypothesis task_codes :
  ∀ i pre t, level_tasks tasks !! i = Some (pre, t) →
             pre ≠ c ∧ (i + 1 < M → t ≠ c) ∧ (i + 1 = M → t = c).
Hypothesis last_code : last_task tasks ≠ c.
Hypothesis outer_levels_nonempty :
  ∀ j lo i n, los !! j = Some lo → 1 ≤ i → i < preloop_level lo →
              extents arrays lv los !! i = Some n → (1 ≤ n)%Z.


End AfterChecks.
End Pipeline.

(** ** The declarations *)

Section Declarations.
Variable lv : nat → string.

Lemma assigned_list_app l1 l2 :
  assigned_list (l1 ++ l2) = assigned_list l1 ++ assigned_list l2.
Proof. induction l1 as [|s l1 IH]; simpl; [done|]. by rewrite IH, (assoc_L (++)). Qed.

Lemma assigned_list_join ls :
  assigned_list (mjoin ls) = mjoin (assigned_list <$> ls).
Proof.
  induction ls as [|l ls IH]; [done|].
  change (mjoin (l :: ls)) with (l ++ mjoin ls).
  rewrite assigned_list_app, IH. done.
Qed.

Lemma declared_scalars_app l1 l2 :
  declared_scalars (l1 ++ l2) = declared_scalars l1 ++ declared_scalars l2.
Proof. apply omap_app. Qed.

Lemma declared_entries var k (lo : list index) :
  declared_scalars (mjoin (declare_entry var <$> enumerate_from k lo))
  ≡ₚ operand_scalars var k lo.
Proof.
  revert k. induction lo as [|ix lo IH]; intros k; [done|].
  cbn [enumerate_from fmap list_fmap mjoin list_join].
  rewrite declared_scalars_app, IH. unfold operand_scalars.
  destruct ix as [|d]; cbn [declare_entry declared_scalars omap nonx list_omap app
                              enumerate_from fmap list_fmap].
  - fold (nonx lo). by rewrite <-!Permutation_middle.
  - fold (nonx lo). cbn [fmap list_fmap app].
    rewrite <-!Permutation_middle. cbn [app]. done.
Qed.

Lemma jump_fold_assigned var dtype l init adjust :
  assigned_list (foldl (jump_step var dtype) (init, adjust) l).1
  ≡ₚ assigned_list init
     ++ mjoin ((λ '(j, ix), match ix with
                            | Dim d => [n_ var d; stride_ var d; jump_ var ix j]
                            | X => [jump_ var ix j]
                            end) <$> l).
Proof.
  revert init adjust. induction l as [|[j ix] l IH]; intros init adjust.
  - simpl. by rewrite app_nil_r.
  - cbn [foldl fmap list_fmap mjoin list_join].
    destruct ix as [|d]; cbn [jump_step]; rewrite IH, assigned_list_app;
      cbn [assigned_list assigned app]; by rewrite <-(assoc_L (++)).
Qed.

Lemma entries_assigned var k (lo : list index) :
  mjoin ((λ '(j, ix), match ix with
                      | Dim d => [n_ var d; stride_ var d; jump_ var ix j]
                      | X => [jump_ var ix j]
                      end) <$> enumerate_from k lo)
  ≡ₚ operand_scalars var k lo.
Proof.
  revert k. induction lo as [|ix lo IH]; intros k; [done|].
  cbn [enumerate_from fmap list_fmap mjoin list_join]. rewrite IH.
  unfold operand_scalars.
  destruct ix as [|d]; cbn [nonx omap list_omap app enumerate_from fmap list_fmap].
  - fold (nonx lo). by rewrite <-!Permutation_middle.
  - fold (nonx lo). cbn [fmap list_fmap app].
    rewrite <-!Permutation_middle. cbn [app]. done.
Qed.

Lemma rank_check_assigned var lo : assigned_list (rank_check var lo) = [].
Proof. unfold rank_check. by destruct (nonx lo). Qed.

Lemma init_operand_assigned i lo dtype :
  assigned_list (init_operand lv i lo dtype) ≡ₚ operand_scalars (lv i) 0 lo.
Proof.
  unfold init_operand, jump_init. rewrite assigned_list_app, rank_check_assigned.
  cbn [app]. rewrite jump_fold_assigned. cbn [assigned_list app].
  rewrite reverse_Permutation. apply entries_assigned.
Qed.

Lemma declare_operand_scalars i lo dtype :
  declared_scalars (declare_operand lv i lo dtype) ≡ₚ operand_scalars (lv i) 0 lo.
Proof. apply declared_entries. Qed.

Lemma make_declare_enumerate los dtypes :
  make_declare lv los dtypes
  = mjoin ((λ p, declare_operand lv p.1 p.2.1 p.2.2) <$> enumerate (zip los dtypes)).
Proof.
  unfold make_declare, enumerate. f_equal.
  rewrite <- (imap_enumerate_from (λ i p, declare_operand lv i p.1 p.2) 0).
  apply imap_ext. by intros i [lo dtype] _.
Qed.

Lemma declared_scalars_join ls :
  declared_scalars (mjoin ls) = mjoin (declared_scalars <$> ls).
Proof.
  induction ls as [|l ls IH]; [done|].
  change (mjoin (l :: ls)) with (l ++ mjoin ls).
  rewrite declared_scalars_app, IH. done.
Qed.

Lemma dim_check_assigned j0 x0 j x : assigned (dim_check lv j0 x0 j x) = [].
Proof. done. Qed.

Lemma make_checks_check_assigned (arrays : string → option pyarray)
    (sizeof : string → Z) los :
  assigned_list (make_checks_check lv los) = [].
Proof.
  pose proof (make_checks_check_shape lv arrays sizeof los) as Hshape.
  induction Hshape as [|c l (j0 & x0 & j & x & ->) _ IH]; [done|].
  cbn [assigned_list]. by rewrite IH, dim_check_assigned.
Qed.

Lemma make_declare_all_scalars los dtypes :
  declared_scalars (make_declare lv los dtypes)
  ≡ₚ all_scalars lv (enumerate (zip los dtypes)).
Proof.
  rewrite make_declare_enumerate, declared_scalars_join. unfold all_scalars.
  induction (enumerate (zip los dtypes)) as [|[i [lo dtype]] l IH]; [done|].
  cbn [fmap list_fmap mjoin list_join fst snd].
  by rewrite declare_operand_scalars, IH.
Qed.

Lemma make_checks_all_scalars (arrays : string → option pyarray)
    (sizeof : string → Z) los dtypes :
  assigned_list (make_checks lv los dtypes)
  ≡ₚ all_scalars lv (enumerate (zip los dtypes)).
Proof.
  unfold make_checks.
  rewrite assigned_list_app, (make_checks_check_assigned arrays sizeof), app_nil_r.
  rewrite make_checks_init_enumerate, assigned_list_join. unfold all_scalars.
  induction (enumerate (zip los dtypes)) as [|[i [lo dtype]] l IH]; [done|].
  cbn [fmap list_fmap mjoin list_join fst snd].
  by rewrite init_operand_assigned, IH.
Qed.


Lemma enumerate_from_fst {A} k (l : list A) :
  (enumerate_from k l).*1 = seq k (length l).
Proof. revert k. induction l as [|a l IH]; intros k; [done|]. cbn. by rewrite IH. Qed.

Lemma enumerate_from_NoDup {A} k (l : list A) : NoDup (enumerate_from k l).
Proof.
  apply (NoDup_fmap_1 fst). rewrite enumerate_from_fst. apply NoDup_seq.
Qed.

Lemma operand_scalars_var var k lo x :
  x ∈ operand_scalars var k lo → var_of x = Some var.
Proof.
  unfold operand_scalars. rewrite !elem_of_app, !list_elem_of_fmap.
  intros [(d & -> & _)|[(d & -> & _)|([j ix] & -> & _)]]; done.
Qed.

Lemma operand_scalars_NoDup var k lo :
  NoDup (operand_scalars var k lo) ↔ NoDup (nonx lo).
Proof.
  unfold operand_scalars. rewrite !NoDup_app. split.
  - intros (Hn & _). by apply NoDup_fmap_1 in Hn.
  - intros Hlo. split; [|split; [|split; [|split]]].
    + apply NoDup_fmap_2; [by intros ?? [=]|done].
    + intros x Hx. apply list_elem_of_fmap in Hx as (d & -> & _).
      rewrite elem_of_app, !list_elem_of_fmap.
      intros [(d' & [=] & _)|([j ix] & [=] & _)].
    + apply NoDup_fmap_2; [by intros ?? [=]|done].
    + intros x Hx. apply list_elem_of_fmap in Hx as (d & -> & _).
      rewrite list_elem_of_fmap. intros ([j ix] & [=] & _).
    + apply NoDup_fmap_2; [|apply enumerate_from_NoDup].
      intros [j ix] [j' ix'] [=]. by subst.
Qed.

Lemma all_scalars_var operands x :
  x ∈ all_scalars lv operands → ∃ p, p ∈ operands ∧ var_of x = Some (lv p.1).
Proof.
  unfold all_scalars. rewrite list_elem_of_join.
  intros (l & Hx & Hl). apply list_elem_of_fmap in Hl as (p & -> & Hp).
  exists p. split; [done|]. by eapply operand_scalars_var.
Qed.

Lemma all_scalars_NoDup operands :
  NoDup ((λ p, lv p.1) <$> operands) →
  NoDup (all_scalars lv operands) ↔ Forall (λ p, NoDup (nonx p.2.1)) operands.
Proof.
  induction operands as [|p operands IH]; intros Hnames.
  - split; constructor.
  - apply NoDup_cons in Hnames as [Hp Hnames].
    unfold all_scalars. cbn [fmap list_fmap mjoin list_join].
    fold (all_scalars lv operands). rewrite NoDup_app, Forall_cons.
    rewrite operand_scalars_NoDup, (IH Hnames). split; [tauto|].
    intros [Hlo Hrest]. split; [done|]. split; [|done].
    intros x Hx Hx'. apply operand_scalars_var in Hx.
    apply all_scalars_var in Hx' as (q & Hq & Hvar).
    apply Hp. apply list_elem_of_fmap. exists q. split; [|done].
    rewrite Hx in Hvar. by injection Hvar.
Qed.

Lemma operand_names_NoDup {A} (l : list A) n :
  (∀ p q, p < n → q < n → lv p = lv q → p = q) → length l ≤ n →
  NoDup ((λ p : nat * A, lv p.1) <$> enumerate l).
Proof.
  intros Hinj Hlen. apply NoDup_alt. intros i j x.
  rewrite !list_lookup_fmap. unfold enumerate. rewrite !enumerate_from_lookup.
  destruct (l !! i) as [a|] eqn:Ha; [|done].
  destruct (l !! j) as [b|] eqn:Hb; [|done].
  cbn. intros [= <-] [= Heq]. apply lookup_lt_Some in Ha, Hb.
  symmetry. apply Hinj; [lia..|done].
Qed.

Lemma declare_entries_scalar var k (lo : list index) dtype v :
  DeclIter dtype v ∉ mjoin (declare_entry var <$> enumerate_from k lo).
Proof.
  rewrite list_elem_of_join. intros (l & Hin & Hl).
  apply list_elem_of_fmap in Hl as ([j [|d]] & -> & _); cbn in Hin;
    repeat (apply elem_of_cons in Hin as [[=]|Hin]); by apply elem_of_nil in Hin.
Qed.

Lemma make_declare_iter los dtypes dtype var :
  DeclIter dtype var ∈ make_declare lv los dtypes
  ↔ ∃ i lo, los !! i = Some lo ∧ dtypes !! i = Some dtype ∧ var = lv i.
Proof.
  rewrite make_declare_enumerate, list_elem_of_join. split.
  - intros (l & Hin & Hl).
    apply list_elem_of_fmap in Hl as ([i [lo dt]] & -> & Hp).
    apply elem_of_enumerate_zip in Hp as [Hlo Hdt]. cbn [fst snd] in Hin.
    apply elem_of_cons in Hin as [[= -> ->]|Hin]; [by eauto|].
    by apply declare_entries_scalar in Hin.
  - intros (i & lo & Hlo & Hdt & ->).
    exists (declare_operand lv i lo dtype). split; [left|].
    apply list_elem_of_fmap. exists (i, (lo, dtype)). split; [done|].
    by apply elem_of_enumerate_zip.
Qed.

Lemma declared_iters_enumerate (operands : list (nat * (loop_order * string))) :
  declared_iters (mjoin ((λ p, declare_operand lv p.1 p.2.1 p.2.2) <$> operands))
  = (λ p, lv p.1) <$> operands.
Proof.
  induction operands as [|[i [lo dtype]] operands IH]; [done|].
  cbn [fmap list_fmap]. change (mjoin (?l :: ?ls)) with (l ++ mjoin ls).
  unfold declared_iters in *. rewrite omap_app, IH. cbn [fst snd].
  unfold declare_operand. cbn [omap list_omap]. 
  fold (declared_iters (mjoin (declare_entry (lv i) <$> enumerate lo))).
  assert (declared_iters (mjoin (declare_entry (lv i) <$> enumerate lo)) = []) as ->;
    [|done].
  apply elem_of_nil_inv. intros v Hv. unfold declared_iters in Hv.
  apply list_elem_of_omap in Hv as ([dt v'|] & Hin & Hv); [|done].
  by apply declare_entries_scalar in Hin.
Qed.

(** X5: [make_declare] declares the scalar variables that the code of
    [make_checks] assigns, each as many times as it is assigned, and the
    pointers, with their element types, that the code before the loops of
    [make_loop] and [make_loop_careduce] initialises. *)
Theorem declared_as_used los dtypes :
  declared_scalars (make_declare lv los dtypes)
  ≡ₚ assigned_list (make_checks lv los dtypes) ∧
  ∀ var dtype,
    DeclIter dtype var ∈ make_declare lv los dtypes
    ↔ ∃ j, IterInit var dtype ∈ default [] (make_preloops lv los dtypes !! j).
Proof.
  split.
  - by rewrite make_declare_all_scalars,
       (make_checks_all_scalars (λ _, None) (λ _, 0%Z)).
  - intros var dtype. rewrite make_declare_iter. split.
    + intros (i & lo & Hlo & Hdt & ->). exists (preloop_level lo).
      rewrite make_preloops_lookup. apply inits_at_elem_of.
      exists i, lo, dtype. split; [|done]. by apply elem_of_enumerate_zip.
    + intros (j & Hin). rewrite make_preloops_lookup in Hin.
      apply inits_at_elem_of in Hin as (i & lo & dt & Hin & _ & [= -> ->]).
      apply elem_of_enumerate_zip in Hin as [Hlo Hdt]. eauto.
Qed.

(** X6: when the operands have distinct names, [make_declare] declares no
    pointer twice, and it declares no scalar variable twice exactly when
    no loop order (of an operand that has a dtype) names a dimension
    twice. *)
Theorem declarations_distinct los dtypes :
  (∀ p q, p < length los → q < length los → lv p = lv q → p = q) →
  NoDup (declared_iters (make_declare lv los dtypes)) ∧
  (NoDup (declared_scalars (make_declare lv los dtypes))
   ↔ ∀ i lo, i < length dtypes → los !! i = Some lo → NoDup (nonx lo)).
Proof.
  intros Hinj.
  assert (NoDup ((λ p : nat * (loop_order * string), lv p.1)
                   <$> enumerate (zip los dtypes))) as Hnames.
  { apply (operand_names_NoDup _ (length los)); [done|].
    rewrite length_zip_with. lia. }
  split.
  - by rewrite make_declare_enumerate, declared_iters_enumerate.
  - rewrite make_declare_all_scalars, (all_scalars_NoDup _ Hnames), Forall_forall.
    split.
    + intros Hall i lo Hi Hlo. apply lookup_lt_is_Some in Hi as [dtype Hdt].
      apply (Hall (i, (lo, dtype))). by apply elem_of_enumerate_zip.
    + intros Hall [i [lo dtype]] Hin.
      apply elem_of_enumerate_zip in Hin as [Hlo Hdt].
      apply (Hall i); [by eapply lookup_lt_Some|done].
Qed.
End Declarations.

(** ** The errors of the generators *)

Section IndexErrors.
Variable lv : nat → string.
Variable openmp_elemwise_minsize : Z.

Lemma foldlM_None {A B} (f : B → A → option B) (fails : A → Prop) b l :
  (∀ b a, f b a = None ↔ fails a) →
  foldlM f b l = None ↔ ∃ a, a ∈ l ∧ fails a.
Proof.
  intros Hf. revert b. induction l as [|a l IH]; intros b.
  - split; [done|]. intros (a & Ha & _). by apply elem_of_nil in Ha.
  - cbn [foldlM]. destruct (f b a) as [b'|] eqn:Hfa; cbn [mbind option_bind].
    + rewrite IH. split.
      * intros (a' & Ha' & Hfail). exists a'. split; [by right|done].
      * intros (a' & Ha' & Hfail). apply elem_of_cons in Ha' as [->|Ha']; [|by eauto].
        apply (Hf b) in Hfail. congruence.
    + split; [|done]. intros _. exists a. split; [left|]. by apply (Hf b).
Qed.

Lemma loop_over_step_None dtypes i acc jx :
  loop_over_step lv dtypes i acc jx = None ↔ length dtypes ≤ jx.1.
Proof.
  destruct acc as [update sn], jx as [j ix]. cbn [loop_over_step fst].
  rewrite <-lookup_ge_None. by destruct (dtypes !! j).
Qed.

Lemma loop_over_None dtypes openmp preloop code indices i :
  loop_over lv openmp_elemwise_minsize dtypes openmp preloop code indices i = None
  ↔ length dtypes < length indices.
Proof.
  unfold loop_over.
  destruct (foldlM _ _ _) as [[update sn]|] eqn:Hfold; cbn [mbind option_bind].
  - split; [done|]. intros Hlen.
    assert (foldlM (loop_over_step lv dtypes i) ([], Const 1) (enumerate indices)
            = None) as Hnone; [|congruence].
    apply (foldlM_None _ (λ jx, length dtypes ≤ jx.1));
      [apply loop_over_step_None|].
    destruct (lookup_lt_is_Some_2 indices (length dtypes) Hlen) as [ix Hix].
    exists (length dtypes, ix). split; [|done].
    apply list_elem_of_lookup. exists (length dtypes).
    by rewrite enumerate_lookup, Hix.
  - split; [|done]. intros _.
    apply (foldlM_None _ (λ jx, length dtypes ≤ jx.1)) in Hfold
        as ([j ix] & Hin & Hfail); [|apply loop_over_step_None].
    apply list_elem_of_lookup in Hin as [k Hk]. rewrite enumerate_lookup in Hk.
    destruct (indices !! k) as [ix'|] eqn:Hix; [|done]. injection Hk as <- <-.
    apply lookup_lt_Some in Hix. cbn in Hfail. lia.
Qed.

(** X7: [make_loop] raises (Python's [IndexError], on [dtypes[j]]) exactly
    when there is at least one level to emit, that is a pair of tasks and
    a column of the loop orders, and [dtypes] is shorter than
    [loop_orders]. *)
Theorem make_loop_index_error los dtypes tasks openmp :
  make_loop lv openmp_elemwise_minsize los dtypes tasks openmp = None
  ↔ level_tasks tasks ≠ [] ∧ zip_star los ≠ [] ∧ length dtypes < length los.
Proof.
  unfold make_loop.
  destruct (foldlM _ _ _) as [s|] eqn:Hfold; cbn [mbind option_bind].
  - split; [done|]. intros (Htasks & Hcols & Hlen).
    assert (foldlM (make_loop_step lv openmp_elemwise_minsize dtypes openmp
                      (make_preloops lv los dtypes)) []
                   (reverse (level_triples los tasks)) = None) as Hnone;
      [|congruence].
    apply (foldlM_None _ (λ t, length dtypes < length t.2.2)).
    { intros b [i [[pre task] indices]]. apply loop_over_None. }
    destruct (level_tasks tasks) as [|t ts] eqn:Ht; [done|].
    destruct (zip_star los) as [|col cols] eqn:Hc; [done|].
    exists (0, (t, col)). split.
    + rewrite elem_of_reverse. apply list_elem_of_lookup. exists 0.
      by rewrite level_triples_lookup, Ht, Hc.
    + cbn. assert (zip_star los !! 0 = Some col) as H0 by by rewrite Hc.
      apply zip_star_lookup in H0 as [-> _]. done.
  - split; [|done]. intros _.
    apply (foldlM_None _ (λ t, length dtypes < length t.2.2)) in Hfold
        as ([i [t indices]] & Hin & Hfail).
    2: { intros b [i [[pre task] indices]]. apply loop_over_None. }
    rewrite elem_of_reverse in Hin. apply list_elem_of_lookup in Hin as [k Hk].
    pose proof (level_triples_lookup los tasks k) as Hl.
    unfold loop_order in *. rewrite Hl in Hk. clear Hl.
    destruct (level_tasks tasks !! k) as [t'|] eqn:Ht; [|done].
    destruct (zip_star los !! k) as [col|] eqn:Hc; [|done].
    injection Hk as <- <- <-. cbn in Hfail.
    apply zip_star_lookup in Hc as Hcol. destruct Hcol as [Hlen _].
    split; [by intros Hnil; rewrite Hnil in Ht|].
    split; [by intros Hnil; rewrite Hnil in Hc|]. lia.
Qed.
End IndexErrors.

(** ** The further theorems at concrete inputs *)

(** Operands [a] (2 x 3, loop order [(0, 1)]) and [b] (3 elements, loop
    order [('x', 0)]) of the concrete setting. *)
Lemma example_names_distinct :
  ∀ p q, p < 2 → q < 2 → example_lv p = example_lv q → p = q.
Proof. intros [|[|p]] [|[|q]] Hp Hq Heq; (done || lia). Qed.

Lemma example_operands_exist :
  ∀ j, j < 2 →
       ∃ a, example_arrays (example_lv j) = Some a ∧
            length (strides a) = length (shape a) ∧
            Forall (λ n, 0 ≤ n)%Z (shape a).
Proof.
  intros [|[|j]] Hj; [| |lia]; (eexists; split; [reflexivity|]; split; [done|]);
    repeat constructor; lia.
Qed.

Lemma example_operands_exist' :
  ∀ j, j < 2 →
       ∃ a, example_arrays (example_lv j) = Some a ∧
            length (strides a) = length (shape a).
Proof.
  intros j Hj. destruct (example_operands_exist j Hj) as (a & Ha & Hlen & _).
  by exists a.
Qed.





Lemma declarations_distinct_witness :
  NoDup (declared_iters
           (make_declare example_lv [[Dim 0; Dim 1]; [X; Dim 0]]
              ["double"; "double"])) ∧
  (NoDup (declared_scalars
            (make_declare example_lv [[Dim 0; Dim 1]; [X; Dim 0]]
               ["double"; "double"]))
   ↔ ∀ i lo, i < length ["double"; "double"] →
             [[Dim 0; Dim 1]; [X; Dim 0]] !! i = Some lo → NoDup (nonx lo)).
Proof.
  apply (declarations_distinct example_lv [[Dim 0; Dim 1]; [X; Dim 0]]
           ["double"; "double"] example_names_distinct).
Defined.
